(** * AsyncWorker: a cooperative batch scheduler

    Shallow embedding of the weighted, multi-listener worker of
    [src/async-worker.js] (prototype at lines 23-433), together with the
    budget line of the counting variant that carries a [jobsPerFrameRequest]
    setting.  Two more prototypes follow in modules of their own: the
    single-handler worker of the same file ([Single]) and the counting
    worker with listeners ([Counting]).

    Modelling conventions.
    - The worker object is the record [Worker]; the browser ([window] and
      [document]) is the record [Host]; both live in a [World] that every
      method transforms.
    - Weights are JavaScript numbers in the source and exact rationals here.
      Priorities are integers.
    - A job callable and a listener act on the shared [_data] object only;
      they do not call back into the worker.  The visibility of the document
      is constant during one invocation of [_worker].
    - [Array.prototype.sort] is the stable sort of ECMAScript 2019.
    - Ghost components record what the source does not store: [trace]
      lists every call of [_emit], every listener invocation and every job
      invocation (newest first); [job_id] is the identity of the array
      that [append] allocates for a job (the value of [next_job_id] at the
      time of the call); the [Report] that [_worker] returns names the path
      it took and the jobs it invoked. *)

From Stdlib Require Import QArith Lqa Qround Sorting.Sorted.
From stdpp Require Import gmap strings list.

(** ** JavaScript values *)

Inductive JsValue : Type :=
| VUndefined
| VNull
| VBool (b : bool)
| VNum (q : Q)
| VStr (s : string).

(** [v === false] *)
Definition is_false (v : JsValue) : bool :=
  match v with
  | VBool false => true
  | _ => false
  end.

(** [a > b] on numbers *)
Definition Qgt_bool (a b : Q) : bool := negb (Qle_bool a b).

(** The shared [_data] object. *)
Abbreviation Data := (gmap string JsValue).

(** ** Data model *)

(** The frozen event object handed to listeners; its [data] field is the
    shared object itself, which the model threads through the listener. *)
Record Event : Type := mkEvent {
  ev_eventName : string;
  ev_busy : bool;
  ev_interval : Z;
  ev_jobsComplete : nat;
  ev_jobsCount : nat
}.

(** A registered callback: its identity (for [===]) and its behaviour, from
    the event and the shared data to the new shared data and the return
    value. *)
Record Listener : Type := mkListener {
  listener_id : nat;
  listener_call : Event -> Data -> Data * JsValue
}.

(** The second argument of [addEventListener]. *)
Inductive Callback : Type :=
| NotAFunction
| IsFunction (l : Listener).

(** A job callable: from its arguments and the shared data to the new shared
    data and the value it throws, if any. *)
Definition Callable : Type := list JsValue -> Data -> Data * option JsValue.

(** The array [[ fn, args, weight, priority ]]. *)
Record Job : Type := mkJob {
  job_fn : Callable;
  job_args : list JsValue;
  job_weight : Q;
  job_priority : Z;
  job_id : nat
}.

Record Worker : Type := mkWorker {
  _error : option JsValue;
  _busy : bool;
  _data : Data;
  _eventListener : gmap string (list Listener);
  _jobList : list Job;
  _workOnInactive : bool;
  _interval : Z;
  _jobsComplete : nat;
  _jobsCount : nat
}.

(** A callback of the worker waiting in the browser. *)
Inductive Handle : Type :=
| Raf (id : Z)
| Timer (id : Z).

#[global] Instance Handle_eq_dec : EqDecision Handle.
Proof. solve_decision. Defined.

Record Host : Type := mkHost {
  visible : bool;
  visibilitychange_bound : bool;
  raf_last : Z;
  timer_last : Z;
  pending : list Handle
}.

Inductive LogEntry : Type :=
| LEmit (name : string)
| LListener (id : nat) (ev : Event)
| LJob (job : Job).

Record World : Type := mkWorld {
  this : Worker;
  host : Host;
  trace : list LogEntry;
  next_job_id : nat
}.

(** ** Field updates *)

Definition set_error (v : option JsValue) (o : Worker) : Worker :=
  mkWorker v (_busy o) (_data o) (_eventListener o) (_jobList o)
           (_workOnInactive o) (_interval o) (_jobsComplete o) (_jobsCount o).

Definition set_busy (v : bool) (o : Worker) : Worker :=
  mkWorker (_error o) v (_data o) (_eventListener o) (_jobList o)
           (_workOnInactive o) (_interval o) (_jobsComplete o) (_jobsCount o).

Definition set_data (v : Data) (o : Worker) : Worker :=
  mkWorker (_error o) (_busy o) v (_eventListener o) (_jobList o)
           (_workOnInactive o) (_interval o) (_jobsComplete o) (_jobsCount o).

Definition set_eventListener (v : gmap string (list Listener)) (o : Worker) : Worker :=
  mkWorker (_error o) (_busy o) (_data o) v (_jobList o)
           (_workOnInactive o) (_interval o) (_jobsComplete o) (_jobsCount o).

Definition set_jobList (v : list Job) (o : Worker) : Worker :=
  mkWorker (_error o) (_busy o) (_data o) (_eventListener o) v
           (_workOnInactive o) (_interval o) (_jobsComplete o) (_jobsCount o).

Definition set_workOnInactive (v : bool) (o : Worker) : Worker :=
  mkWorker (_error o) (_busy o) (_data o) (_eventListener o) (_jobList o)
           v (_interval o) (_jobsComplete o) (_jobsCount o).

Definition set_interval (v : Z) (o : Worker) : Worker :=
  mkWorker (_error o) (_busy o) (_data o) (_eventListener o) (_jobList o)
           (_workOnInactive o) v (_jobsComplete o) (_jobsCount o).

Definition set_jobsComplete (v : nat) (o : Worker) : Worker :=
  mkWorker (_error o) (_busy o) (_data o) (_eventListener o) (_jobList o)
           (_workOnInactive o) (_interval o) v (_jobsCount o).

Definition set_jobsCount (v : nat) (o : Worker) : Worker :=
  mkWorker (_error o) (_busy o) (_data o) (_eventListener o) (_jobList o)
           (_workOnInactive o) (_interval o) (_jobsComplete o) v.

Definition upd (f : Worker -> Worker) (w : World) : World :=
  mkWorld (f (this w)) (host w) (trace w) (next_job_id w).

Definition upd_host (f : Host -> Host) (w : World) : World :=
  mkWorld (this w) (f (host w)) (trace w) (next_job_id w).

Definition log (e : LogEntry) (w : World) : World :=
  mkWorld (this w) (host w) (e :: trace w) (next_job_id w).

(** ** The browser *)

Definition requestAnimationFrame (h : Host) : Z * Host :=
  let id := (raf_last h + 1)%Z in
  (id, mkHost (visible h) (visibilitychange_bound h) id (timer_last h)
              (pending h ++ [Raf id])).

Definition setTimeout (h : Host) : Z * Host :=
  let id := (timer_last h + 1)%Z in
  (id, mkHost (visible h) (visibilitychange_bound h) (raf_last h) id
              (pending h ++ [Timer id])).

Definition cancelAnimationFrame (id : Z) (h : Host) : Host :=
  mkHost (visible h) (visibilitychange_bound h) (raf_last h) (timer_last h)
         (filter (λ p, p ≠ Raf id) (pending h)).

Definition clearInterval (id : Z) (h : Host) : Host :=
  mkHost (visible h) (visibilitychange_bound h) (raf_last h) (timer_last h)
         (filter (λ p, p ≠ Timer id) (pending h)).

(** [document.addEventListener("visibilitychange", bind)] and its removal:
    the same function object is registered at most once. *)
Definition bind_visibilitychange (b : bool) (h : Host) : Host :=
  mkHost (visible h) b (raf_last h) (timer_last h) (pending h).

Definition set_visible (v : bool) (h : Host) : Host :=
  mkHost v (visibilitychange_bound h) (raf_last h) (timer_last h) (pending h).

Definition set_pending (l : list Handle) (h : Host) : Host :=
  mkHost (visible h) (visibilitychange_bound h) (raf_last h) (timer_last h) l.

(** ** The worker *)

Definition _signals : list string :=
  [ "start"; "stop"; "break"; "job"; "framerequest"; "complete"; "error" ]%string.

Definition _init : Worker :=
  {| _error := None;
     _busy := false;
     _data := ∅;
     _eventListener := ∅;
     _jobList := [];
     _workOnInactive := true;
     _interval := -1;
     _jobsComplete := 0;
     _jobsCount := 0 |}.

(** [new AsyncWorker()] in a browser whose document is visible or not. *)
Definition new_world (v : bool) : World :=
  {| this := _init;
     host := mkHost v false 0 0 [];
     trace := [];
     next_job_id := 0 |}.

Definition browserActive (w : World) : bool := visible (host w).
Definition error (w : World) : option JsValue := _error (this w).
Definition busy (w : World) : bool := _busy (this w).
Definition data (w : World) : Data := _data (this w).
Definition workOnInactive (w : World) : bool := _workOnInactive (this w).

(** [worker.workOnInactive = value], with [value] already coerced by [!!]. *)
Definition workOnInactive_set (value : bool) (w : World) : World :=
  upd (set_workOnInactive value) w.

Definition snapshot (eventName : string) (w : World) : Event :=
  {| ev_eventName := eventName;
     ev_busy := busy w;
     ev_interval := _interval (this w);
     ev_jobsComplete := _jobsComplete (this w);
     ev_jobsCount := _jobsCount (this w) |}.

(** The [for] loop of [_emit]. *)
Fixpoint call_listeners (ls : list Listener) (event : Event) (result : JsValue)
    (w : World) : JsValue * World :=
  match ls with
  | [] => (result, w)
  | l :: ls' =>
      let '(d, r) := listener_call l event (data w) in
      let w := log (LListener (listener_id l) event) (upd (set_data d) w) in
      call_listeners ls' event (if is_false r then VBool false else result) w
  end.

Definition _emit (eventName : string) (w : World) : JsValue * World :=
  let w := log (LEmit eventName) w in
  match _eventListener (this w) !! eventName with
  | None => (VUndefined, w)
  | Some ls => call_listeners ls (snapshot eventName w) VUndefined w
  end.

Definition _continue (w : World) : World :=
  if browserActive w then
    let '(id, h) := requestAnimationFrame (host w) in
    upd (set_interval id) (upd_host (λ _, h) w)
  else
    let '(id, h) := setTimeout (host w) in
    upd (set_interval id) (upd_host (λ _, h) w).

Definition _stop (w : World) : World :=
  let w := upd (set_interval (-1)) w in
  snd (_emit "stop" w).

Definition _break (w : World) : World :=
  let w := upd (set_interval (-1)) w in
  snd (_emit "break" w).

Definition clear (w : World) : World :=
  let w := upd_host (cancelAnimationFrame (_interval (this w))) w in
  let w := upd_host (clearInterval (_interval (this w))) w in
  let w := upd_host (bind_visibilitychange false) w in
  let w := upd (set_error None) w in
  let w := upd (set_busy false) w in
  let w := upd (set_interval (-1)) w in
  let w := upd (set_jobList []) w in
  let w := upd (set_jobsComplete 0) w in
  upd (set_jobsCount (length (_jobList (this w)))) w.

Definition _complete (w : World) : World :=
  let w := upd (set_busy false) w in
  let w := upd (set_interval (-1)) w in
  let w := snd (_emit "complete" w) in
  clear w.

(** *** [_worker] *)

(** The budget of one invocation. *)
Definition weightMax (w : World) : Q :=
  if negb (workOnInactive w) || browserActive w then 1 else 25.

(** The first [while] loop: the number of jobs to execute.  The source walks
    [_jobList] with [index], which always equals [count]; the model walks the
    remaining suffix of the list. *)
Fixpoint count_jobs (weightMax : Q) (jobs : list Job) (weightTotal : Q)
    (count : nat) : nat :=
  match jobs with
  | [] => count
  | job :: jobs' =>
      let weight := job_weight job in
      if Qgt_bool (weight + weightTotal) weightMax then count
      else count_jobs weightMax jobs' (weightTotal + weight) (S count)
  end.

(** How the second [while] loop is left. *)
Inductive LoopExit : Type :=
| ExitLoop                              (* condition false, or [break] *)
| ExitCatch (job : Job) (e : JsValue)   (* [return] in the [catch] block *)
| ExitPrevented.                        (* [return this._break()] *)

(** The second [while] loop, [todo] being [count - index].  It returns how
    it was left, the jobs whose callable it invoked (in order), and the world
    at that point; for [ExitPrevented] the call of [_break] is still to
    come. *)
Fixpoint execute (todo : nat) (weightTotal : Q) (w : World)
    : LoopExit * list Job * World :=
  match todo, _jobList (this w) with
  | S todo', job :: rest =>
      let w := upd (set_jobList rest) w in
      let w := log (LJob job) w in
      let '(d, thrown) := job_fn job (job_args job) (data w) in
      let w := upd (set_data d) w in
      match thrown with
      | Some e =>
          let w := upd (set_jobList (job :: _jobList (this w))) w in
          let w := upd (set_error (Some e)) w in
          let w := snd (_emit "error" w) in
          (ExitCatch job e, [job], w)
      | None =>
          let w := upd (set_jobsComplete (S (_jobsComplete (this w)))) w in
          let weightTotal := (weightTotal + job_weight job)%Q in
          let '(r, w) := _emit "job" w in
          if is_false r then (ExitPrevented, [job], w)
          else if browserActive w && Qgt_bool weightTotal 1 then (ExitLoop, [job], w)
          else
            let '(x, jobs, w) := execute todo' weightTotal w in
            (x, job :: jobs, w)
      end
  | _, _ => (ExitLoop, [], w)
  end.

(** The path on which [_worker] returns. *)
Inductive Outcome : Type :=
| Stopped
| Errored (job : Job) (e : JsValue)
| BrokenByJobListener
| BrokenByFrameListener
| Continued
| Completed.

(** What one invocation did: a ghost value, the source returns a number or
    [undefined] that nobody reads. *)
Record Report : Type := mkReport {
  outcome : Outcome;
  invoked : list Job
}.

Definition _worker (w : World) : World * Report :=
  if negb (busy w) then (_stop w, mkReport Stopped [])
  else
    let count := count_jobs (weightMax w) (_jobList (this w)) 0 0 in
    match execute count 0 w with
    | (ExitCatch job e, jobs, w) => (w, mkReport (Errored job e) jobs)
    | (ExitPrevented, jobs, w) => (_break w, mkReport BrokenByJobListener jobs)
    | (ExitLoop, jobs, w) =>
        let '(r, w) := _emit "framerequest" w in
        if is_false r then (_break w, mkReport BrokenByFrameListener jobs)
        else
          match _jobList (this w) with
          | _ :: _ => (_continue w, mkReport Continued jobs)
          | [] => (_complete w, mkReport Completed jobs)
          end
    end.

Definition _handleVisibilityChange (w : World) : World :=
  if negb (busy w) || browserActive w then w
  else
    let w := upd_host (cancelAnimationFrame (_interval (this w))) w in
    let w := upd_host (clearInterval (_interval (this w))) w in
    _continue w.

(** *** [append] *)

(** The comparison function handed to [sort]. *)
Definition compareFn (a b : Job) : Z := (job_priority a - job_priority b)%Z.

Fixpoint insert_job (a : Job) (l : list Job) : list Job :=
  match l with
  | [] => [a]
  | b :: l' => if (compareFn a b <=? 0)%Z then a :: b :: l' else b :: insert_job a l'
  end.

(** [Array.prototype.sort] with [compareFn]: a stable sort. *)
Definition sort (l : list Job) : list Job := foldr insert_job [] l.

(** The arguments of one [append] call.  A missing [args] is [None]; [weight]
    and [priority] are given by their numeric value [x*1], [None] when that
    is [NaN] (an omitted argument, for one). *)
Record AppendArgs : Type := mkAppendArgs {
  arg_fn : Callable;
  arg_args : option (list JsValue);
  arg_weight : option Q;
  arg_priority : option Z
}.

(** The array that [append] pushes, [id] being its identity. *)
Definition make_job (a : AppendArgs) (id : nat) : Job :=
  let args := default [] (arg_args a) in
  let weight := default 0%Q (arg_weight a) in
  let priority := default 0%Z (arg_priority a) in
  let weight := if Qle_bool weight 0 || Qgt_bool weight 1 then 1%Q else weight in
  mkJob (arg_fn a) args weight priority id.

Definition append (a : AppendArgs) (w : World) : World :=
  let job := make_job a (next_job_id w) in
  let w := mkWorld (this w) (host w) (trace w) (S (next_job_id w)) in
  let w := upd (set_jobList (sort (_jobList (this w) ++ [job]))) w in
  upd (set_jobsCount (S (_jobsCount (this w)))) w.

(** *** [start], [stop], [destroy] *)

Definition start (w : World) : World :=
  if busy w then w
  else
    let w := upd_host (bind_visibilitychange true) w in
    let w := upd (set_busy true) w in
    let w := snd (_emit "start" w) in
    _continue w.

Definition stop (w : World) : World :=
  if negb (busy w) then w
  else
    let w := upd_host (bind_visibilitychange false) w in
    upd (set_busy false) w.

Definition destroy (w : World) : World := clear (stop w).

(** *** Listeners *)

Definition invalid_signal_message : string :=
  "AsyncWorker: Failed to execute 'addEventListener', the eventName argument must be valid signal ("
  +:+ String.concat "," _signals +:+ ").".

Definition invalid_callback_message : string :=
  "AsyncWorker: Failed to execute 'addEventListener', the callback argument must be function.".

(** [inl] is the thrown string. *)
Definition addEventListener (eventName : string) (callback : Callback) (w : World)
    : string + World :=
  if bool_decide (eventName ∉ _signals) then inl invalid_signal_message
  else
    match callback with
    | NotAFunction => inl invalid_callback_message
    | IsFunction l =>
        let ls := default [] (_eventListener (this w) !! eventName) in
        inr (upd (set_eventListener (<[eventName := ls ++ [l]]> (_eventListener (this w)))) w)
    end.

Definition removeEventListener (eventName : string) (callback : Callback) (w : World)
    : World :=
  match _eventListener (this w) !! eventName, callback with
  | Some ls, IsFunction l =>
      let ls := filter (λ l', listener_id l' ≠ listener_id l) ls in
      upd (set_eventListener (<[eventName := ls]> (_eventListener (this w)))) w
  | _, _ => w
  end.

(** ** Runs: what a page and the browser do to a worker *)

Inductive Op : Type :=
| OAppend (a : AppendArgs)
| OStart
| OStop
| OClear
| ODestroy
| OSetWorkOnInactive (value : bool)
| OAddEventListener (eventName : string) (callback : Callback)
| ORemoveEventListener (eventName : string) (callback : Callback)
| OFire (p : Handle)               (* the browser runs a waiting callback *)
| OVisibilityChange (v : bool).    (* the document becomes visible or hidden *)

(** The browser takes the callback [p] off its list. *)
Definition dequeue (p : Handle) (w : World) : World :=
  upd_host (λ h, set_pending (filter (λ q, q ≠ p) (pending h)) h) w.

(** The browser takes the callback [p] off its list and runs [_worker]; a
    callback that is not waiting cannot fire. *)
Definition fire (p : Handle) (w : World) : World :=
  if bool_decide (p ∈ pending (host w)) then fst (_worker (dequeue p w))
  else w.

Definition visibilitychange (v : bool) (w : World) : World :=
  let w := upd_host (set_visible v) w in
  if visibilitychange_bound (host w) then _handleVisibilityChange w else w.

Definition step (w : World) (op : Op) : World :=
  match op with
  | OAppend a => append a w
  | OStart => start w
  | OStop => stop w
  | OClear => clear w
  | ODestroy => destroy w
  | OSetWorkOnInactive value => workOnInactive_set value w
  | OAddEventListener n c =>
      match addEventListener n c w with
      | inl _ => w
      | inr w' => w'
      end
  | ORemoveEventListener n c => removeEventListener n c w
  | OFire p => fire p w
  | OVisibilityChange v => visibilitychange v w
  end.

Definition run (ops : list Op) (w : World) : World := foldl step w ops.

(** * Specification vocabulary *)

(** The trace entry of a listener invocation. *)
Definition is_listener_entry (e : LogEntry) : Prop :=
  match e with
  | LListener _ _ => True
  | _ => False
  end.

(** The world once the loop has completed [k] jobs: [err], [d] and [t] are
    the error field, the shared data and the new part of the trace. *)
Definition after_jobs (w : World) (k : nat) (err : option JsValue) (d : Data)
    (t : list LogEntry) : World :=
  mkWorld
    (mkWorker err (_busy (this w)) d (_eventListener (this w))
              (drop k (_jobList (this w))) (_workOnInactive (this w))
              (_interval (this w)) (_jobsComplete (this w) + k)
              (_jobsCount (this w)))
    (host w) (t ++ trace w) (next_job_id w).

(** The number of jobs the first loop selects. *)
Definition batch_size (w : World) : nat :=
  count_jobs (weightMax w) (_jobList (this w)) 0 0.

(** The last call of [_emit] in the new part [t] of a trace was for [name]. *)
Definition ends_with_emit (name : string) (t : list LogEntry) : Prop :=
  ∃ t1 t2, t = t1 ++ LEmit name :: t2 ∧ Forall is_listener_entry t1.

(** What [_worker] does on each of its paths, [w] being the world it is
    invoked in and [w'] the world it leaves. *)
Definition worker_post (w w' : World) (rep : Report) : Prop :=
  match outcome rep with
  | Stopped => busy w = false ∧ w' = _stop w ∧ invoked rep = []
  | Errored job e =>
      busy w = true ∧
      ∃ k d t,
        S k ≤ batch_size w
        ∧ _jobList (this w) !! k = Some job
        ∧ invoked rep = take (S k) (_jobList (this w))
        ∧ w' = after_jobs w k (Some e) d t
        ∧ ends_with_emit "error" t
  | BrokenByJobListener =>
      busy w = true ∧
      ∃ k d t,
        1 ≤ k ∧ k ≤ batch_size w ∧ k ≤ length (_jobList (this w))
        ∧ invoked rep = take k (_jobList (this w))
        ∧ w' = upd (set_interval (-1)) (after_jobs w k (_error (this w)) d t)
        ∧ ends_with_emit "break" t
  | BrokenByFrameListener =>
      busy w = true ∧
      ∃ k d t,
        k ≤ batch_size w ∧ k ≤ length (_jobList (this w))
        ∧ invoked rep = take k (_jobList (this w))
        ∧ w' = upd (set_interval (-1)) (after_jobs w k (_error (this w)) d t)
        ∧ ends_with_emit "break" t
  | Continued =>
      busy w = true ∧
      ∃ k d t,
        k ≤ batch_size w ∧ k < length (_jobList (this w))
        ∧ invoked rep = take k (_jobList (this w))
        ∧ w' = _continue (after_jobs w k (_error (this w)) d t)
        ∧ ends_with_emit "framerequest" t
  | Completed =>
      busy w = true ∧
      ∃ k d t,
        k ≤ batch_size w ∧ k = length (_jobList (this w))
        ∧ invoked rep = _jobList (this w)
        ∧ w' = clear (upd (set_interval (-1)) (upd (set_busy false)
                        (after_jobs w k (_error (this w)) d t)))
        ∧ ends_with_emit "complete" t
  end.

(** [a] comes before [b] in the pair (priority, insertion order). *)
Definition job_before (a b : Job) : Prop :=
  (job_priority a < job_priority b)%Z
  ∨ (job_priority a = job_priority b ∧ job_id a < job_id b).

(** The weight of a job lies in (0, 1]. *)
Definition weight_ok (j : Job) : Prop :=
  (0 < job_weight j)%Q ∧ (job_weight j <= 1)%Q.

(** What holds of the job list and the counters in every run: the counters
    balance, the weights are clamped, the list is in order, and every job is
    older than the next one to be appended. *)
Record Inv (w : World) : Prop := mkInv {
  inv_count :
    _jobsComplete (this w) + length (_jobList (this w)) = _jobsCount (this w);
  inv_weight : Forall weight_ok (_jobList (this w));
  inv_sorted : StronglySorted job_before (_jobList (this w));
  inv_ids : Forall (λ j, job_id j < next_job_id w) (_jobList (this w))
}.

(** The part of the world the invariant reads. *)
Definition queue (w : World) : list Job * nat * nat * nat :=
  (_jobList (this w), _jobsComplete (this w), _jobsCount (this w), next_job_id w).


(** ** The counting variant: budget of one invocation

    The variant with a [jobsPerFrameRequest] setting counts jobs instead of
    weighing them. *)
Module Counted.

Record Worker : Type := mkWorker {
  _jobsPerFrameRequest : Q;
  _workOnInactive : bool
}.

Definition _init : Worker :=
  {| _jobsPerFrameRequest := 1; _workOnInactive := true |}.

Definition jobsPerFrameRequest (o : Worker) : Q := _jobsPerFrameRequest o.
Definition workOnInactive (o : Worker) : bool := _workOnInactive o.

(** [Math.max(value*1 || 0, 1)], [value] being given as for [append]. *)
Definition jobsPerFrameRequest_set (value : option Q) (o : Worker) : Worker :=
  let v := default 0%Q value in
  mkWorker (if Qle_bool 1 v then v else 1%Q) (_workOnInactive o).

Definition workOnInactive_set (value : bool) (o : Worker) : Worker :=
  mkWorker (_jobsPerFrameRequest o) value.

(** [var count] of [_worker]. *)
Definition count (o : Worker) (browserActive : bool) : Q :=
  (jobsPerFrameRequest o
   * (if negb (workOnInactive o) || browserActive then 1 else 50))%Q.

End Counted.

(** The throttle factor as the specification words it: 1 when the host is
    foregrounded or the inactive multiplier is switched off, the inactive
    multiplier otherwise. *)
Definition throttleFactor (inactiveMultiplier : Q) (workOnInactive foregrounded : bool)
    : Q :=
  if foregrounded then 1%Q
  else if workOnInactive then inactiveMultiplier
  else 1%Q.

(** ** Example worlds *)

(** A callable that returns, and one that throws a string. *)
Definition returns : Callable := λ _ d, (d, None).

(** [append(fn, undefined, 0.5)] *)
Definition half (fn : Callable) : AppendArgs :=
  mkAppendArgs fn None (Some (1 # 2)%Q) None.

(** A listener that returns [false]. *)
Definition veto : Listener := mkListener 0 (λ _ d, (d, VBool false)).



(** Two jobs of weight 1/2 and a [job] listener that returns [false],
    started in a visible document, at the moment the browser runs the
    callback. *)
Definition world_veto : World :=
  dequeue (Raf 1)
    (run [OAppend (half returns); OAppend (half returns);
          OAddEventListener "job" (IsFunction veto); OStart] (new_world true)).


(** * The other prototypes *)

(** ** The single-handler worker

    The second prototype of [src/async-worker.js] (lines 482-848): one
    settable handler per signal instead of listener lists, jobs counted by
    [jobsPerFrameRequest], no weights, no priorities and no [try]. *)
Module Single.

(** The array [[ fn, args ]]. *)
Record Job : Type := mkJob {
  job_fn : Callable;
  job_args : list JsValue
}.

(** [_noop]: a function object of its own that does nothing. *)
Definition _noop : Listener := mkListener 0 (λ _ d, (d, VUndefined)).

Record Worker : Type := mkWorker {
  _busy : bool;
  _data : Data;
  _jobList : list Job;
  _jobsPerFrameRequest : Q;
  _interval : Z;
  _jobsComplete : nat;
  _jobsCount : nat;
  _onStart : Listener;
  _onStop : Listener;
  _onBreak : Listener;
  _onJob : Listener;
  _onFrameRequest : Listener;
  _onComplete : Listener
}.

(** A trace entry for every handler call and every job call, newest
    first. *)
Inductive LogEntry : Type :=
| LHandler (name : string) (id : nat) (ev : Event)
| LJob (job : Job).

(** [raf_available] is [typeof window.requestAnimationFrame === "function"]. *)
Record World : Type := mkWorld {
  this : Worker;
  host : Host;
  raf_available : bool;
  trace : list LogEntry
}.

Definition set_busy (v : bool) (o : Worker) : Worker :=
  mkWorker v (_data o) (_jobList o) (_jobsPerFrameRequest o) (_interval o)
           (_jobsComplete o) (_jobsCount o) (_onStart o) (_onStop o) (_onBreak o)
           (_onJob o) (_onFrameRequest o) (_onComplete o).

Definition set_data (v : Data) (o : Worker) : Worker :=
  mkWorker (_busy o) v (_jobList o) (_jobsPerFrameRequest o) (_interval o)
           (_jobsComplete o) (_jobsCount o) (_onStart o) (_onStop o) (_onBreak o)
           (_onJob o) (_onFrameRequest o) (_onComplete o).

Definition set_jobList (v : list Job) (o : Worker) : Worker :=
  mkWorker (_busy o) (_data o) v (_jobsPerFrameRequest o) (_interval o)
           (_jobsComplete o) (_jobsCount o) (_onStart o) (_onStop o) (_onBreak o)
           (_onJob o) (_onFrameRequest o) (_onComplete o).

Definition set_jobsPerFrameRequest (v : Q) (o : Worker) : Worker :=
  mkWorker (_busy o) (_data o) (_jobList o) v (_interval o)
           (_jobsComplete o) (_jobsCount o) (_onStart o) (_onStop o) (_onBreak o)
           (_onJob o) (_onFrameRequest o) (_onComplete o).

Definition set_interval (v : Z) (o : Worker) : Worker :=
  mkWorker (_busy o) (_data o) (_jobList o) (_jobsPerFrameRequest o) v
           (_jobsComplete o) (_jobsCount o) (_onStart o) (_onStop o) (_onBreak o)
           (_onJob o) (_onFrameRequest o) (_onComplete o).

Definition set_jobsComplete (v : nat) (o : Worker) : Worker :=
  mkWorker (_busy o) (_data o) (_jobList o) (_jobsPerFrameRequest o) (_interval o)
           v (_jobsCount o) (_onStart o) (_onStop o) (_onBreak o)
           (_onJob o) (_onFrameRequest o) (_onComplete o).

Definition set_jobsCount (v : nat) (o : Worker) : Worker :=
  mkWorker (_busy o) (_data o) (_jobList o) (_jobsPerFrameRequest o) (_interval o)
           (_jobsComplete o) v (_onStart o) (_onStop o) (_onBreak o)
           (_onJob o) (_onFrameRequest o) (_onComplete o).

Definition upd (f : Worker → Worker) (w : World) : World :=
  mkWorld (f (this w)) (host w) (raf_available w) (trace w).

Definition upd_host (f : Host → Host) (w : World) : World :=
  mkWorld (this w) (f (host w)) (raf_available w) (trace w).

Definition log (e : LogEntry) (w : World) : World :=
  mkWorld (this w) (host w) (raf_available w) (e :: trace w).

Definition _init : Worker :=
  {| _busy := false;
     _data := ∅;
     _jobList := [];
     _jobsPerFrameRequest := 1;
     _interval := -1;
     _jobsComplete := 0;
     _jobsCount := 0;
     _onStart := _noop;
     _onStop := _noop;
     _onBreak := _noop;
     _onJob := _noop;
     _onFrameRequest := _noop;
     _onComplete := _noop |}.

Definition new_world (raf : bool) : World :=
  {| this := _init;
     host := mkHost true false 0 0 [];
     raf_available := raf;
     trace := [] |}.

Definition busy (w : World) : bool := _busy (this w).
Definition data (w : World) : Data := _data (this w).
Definition jobsPerFrameRequest (w : World) : Q := _jobsPerFrameRequest (this w).

(** [Math.max(value*1 || 0, 1)], [value] being given by its numeric value,
    [None] when that is [NaN]. *)
Definition jobsPerFrameRequest_set (value : option Q) (w : World) : World :=
  let v := default 0%Q value in
  upd (set_jobsPerFrameRequest (if Qle_bool 1 v then v else 1%Q)) w.

(** The handler setters: a value that is not a function gives [_noop]. *)
Definition handler_of (value : Callback) : Listener :=
  match value with
  | IsFunction f => f
  | NotAFunction => _noop
  end.

Definition onStart_set (value : Callback) (w : World) : World :=
  let o := this w in
  upd (λ _, mkWorker (_busy o) (_data o) (_jobList o) (_jobsPerFrameRequest o)
                     (_interval o) (_jobsComplete o) (_jobsCount o)
                     (handler_of value) (_onStop o) (_onBreak o) (_onJob o)
                     (_onFrameRequest o) (_onComplete o)) w.

Definition onStop_set (value : Callback) (w : World) : World :=
  let o := this w in
  upd (λ _, mkWorker (_busy o) (_data o) (_jobList o) (_jobsPerFrameRequest o)
                     (_interval o) (_jobsComplete o) (_jobsCount o)
                     (_onStart o) (handler_of value) (_onBreak o) (_onJob o)
                     (_onFrameRequest o) (_onComplete o)) w.

Definition onBreak_set (value : Callback) (w : World) : World :=
  let o := this w in
  upd (λ _, mkWorker (_busy o) (_data o) (_jobList o) (_jobsPerFrameRequest o)
                     (_interval o) (_jobsComplete o) (_jobsCount o)
                     (_onStart o) (_onStop o) (handler_of value) (_onJob o)
                     (_onFrameRequest o) (_onComplete o)) w.

Definition onJob_set (value : Callback) (w : World) : World :=
  let o := this w in
  upd (λ _, mkWorker (_busy o) (_data o) (_jobList o) (_jobsPerFrameRequest o)
                     (_interval o) (_jobsComplete o) (_jobsCount o)
                     (_onStart o) (_onStop o) (_onBreak o) (handler_of value)
                     (_onFrameRequest o) (_onComplete o)) w.

Definition onFrameRequest_set (value : Callback) (w : World) : World :=
  let o := this w in
  upd (λ _, mkWorker (_busy o) (_data o) (_jobList o) (_jobsPerFrameRequest o)
                     (_interval o) (_jobsComplete o) (_jobsCount o)
                     (_onStart o) (_onStop o) (_onBreak o) (_onJob o)
                     (handler_of value) (_onComplete o)) w.

Definition onComplete_set (value : Callback) (w : World) : World :=
  let o := this w in
  upd (λ _, mkWorker (_busy o) (_data o) (_jobList o) (_jobsPerFrameRequest o)
                     (_interval o) (_jobsComplete o) (_jobsCount o)
                     (_onStart o) (_onStop o) (_onBreak o) (_onJob o)
                     (_onFrameRequest o) (handler_of value)) w.

(** [c.toUpperCase()] for one ASCII character. *)
Definition toUpperCase (c : Ascii.ascii) : Ascii.ascii :=
  let n := Ascii.nat_of_ascii c in
  if bool_decide (97 ≤ n ≤ 122) then Ascii.ascii_of_nat (n - 32) else c.

(** ["on" + eventName.charAt(0).toUpperCase() + eventName.slice(1)] *)
Definition handler_name (eventName : string) : string :=
  match eventName with
  | EmptyString => "on"
  | String c rest => "on" +:+ String (toUpperCase c) rest
  end.

(** [this[name]] for a name that starts with [on]: the six handler
    properties are the only ones of the worker. *)
Definition property (name : string) (o : Worker) : option Listener :=
  if bool_decide (name = "onStart") then Some (_onStart o)
  else if bool_decide (name = "onStop") then Some (_onStop o)
  else if bool_decide (name = "onBreak") then Some (_onBreak o)
  else if bool_decide (name = "onJob") then Some (_onJob o)
  else if bool_decide (name = "onFrameRequest") then Some (_onFrameRequest o)
  else if bool_decide (name = "onComplete") then Some (_onComplete o)
  else None.

Definition snapshot (eventName : string) (w : World) : Event :=
  {| ev_eventName := eventName;
     ev_busy := busy w;
     ev_interval := _interval (this w);
     ev_jobsComplete := _jobsComplete (this w);
     ev_jobsCount := _jobsCount (this w) |}.

(** [_emit] has no [return]: its value is [undefined], whatever the handler
    returns. *)
Definition _emit (eventName : string) (w : World) : JsValue * World :=
  let name := handler_name eventName in
  match property name (this w) with
  | Some fn =>
      let event := snapshot eventName w in
      let '(d, _) := listener_call fn event (data w) in
      (VUndefined, log (LHandler name (listener_id fn) event) (upd (set_data d) w))
  | None => (VUndefined, w)
  end.

Definition _continue (w : World) : World :=
  if raf_available w then
    let '(id, h) := requestAnimationFrame (host w) in
    upd (set_interval id) (upd_host (λ _, h) w)
  else
    let '(id, h) := setTimeout (host w) in
    upd (set_interval id) (upd_host (λ _, h) w).

Definition _stop (w : World) : World :=
  let w := upd (set_interval (-1)) w in
  snd (_emit "stop" w).

Definition _break (w : World) : World :=
  let w := upd (set_interval (-1)) w in
  snd (_emit "break" w).

Definition clear (w : World) : World :=
  let w := upd_host (clearInterval (_interval (this w))) w in
  let w := upd (set_busy false) w in
  let w := upd (set_interval (-1)) w in
  let w := upd (set_jobList []) w in
  let w := upd (set_jobsComplete 0) w in
  upd (set_jobsCount (length (_jobList (this w)))) w.

Definition _complete (w : World) : World :=
  let w := upd (set_busy false) w in
  let w := upd (set_interval (-1)) w in
  let w := snd (_emit "complete" w) in
  clear w.

(** How the [while] loop of [_worker] is left. *)
Inductive LoopExit : Type :=
| ExitLoop                              (* condition false *)
| ExitThrow (job : Job) (e : JsValue)   (* the callable throws: no [try] *)
| ExitPrevented.                        (* [return this._break()] *)

(** The [while] loop.  [jobs] is [this._jobList], which the loop shifts one
    job at a time; it returns how it was left, the jobs whose callable it
    invoked, and the world at that point. *)
Fixpoint execute (jobs : list Job) (index : nat) (w : World)
    : LoopExit * list Job * World :=
  match jobs with
  | job :: rest =>
      if Qgt_bool (jobsPerFrameRequest w) (inject_Z (Z.of_nat index)) then
        let w := upd (set_jobList rest) w in
        let w := log (LJob job) w in
        let '(d, thrown) := job_fn job (job_args job) (data w) in
        let w := upd (set_data d) w in
        match thrown with
        | Some e => (ExitThrow job e, [job], w)
        | None =>
            let w := upd (set_jobsComplete (S (_jobsComplete (this w)))) w in
            let '(r, w) := _emit "job" w in
            if is_false r then (ExitPrevented, [job], w)
            else
              let '(x, jobs', w) := execute rest (S index) w in
              (x, job :: jobs', w)
        end
      else (ExitLoop, [], w)
  | [] => (ExitLoop, [], w)
  end.

(** The path on which [_worker] returns, or the value that escapes it. *)
Inductive Outcome : Type :=
| Stopped
| Threw (job : Job) (e : JsValue)
| Broken
| Continued
| Completed.

Record Report : Type := mkReport {
  outcome : Outcome;
  invoked : list Job
}.

Definition _worker (w : World) : World * Report :=
  if negb (busy w) then (_stop w, mkReport Stopped [])
  else
    match execute (_jobList (this w)) 0 w with
    | (ExitThrow job e, jobs, w) => (w, mkReport (Threw job e) jobs)
    | (ExitPrevented, jobs, w) => (_break w, mkReport Broken jobs)
    | (ExitLoop, jobs, w) =>
        let '(r, w) := _emit "frameRequest" w in
        if is_false r then (_break w, mkReport Broken jobs)
        else
          match _jobList (this w) with
          | _ :: _ => (_continue w, mkReport Continued jobs)
          | [] => (_complete w, mkReport Completed jobs)
          end
    end.

(** [append(fn, ...args)] *)
Definition append (fn : Callable) (args : list JsValue) (w : World) : World :=
  let w := upd (set_jobList (_jobList (this w) ++ [mkJob fn args])) w in
  upd (set_jobsCount (length (_jobList (this w)))) w.

Definition start (w : World) : World :=
  if busy w then w
  else
    let w := upd (set_busy true) w in
    let w := snd (_emit "start" w) in
    _continue w.

Definition stop (w : World) : World :=
  if negb (busy w) then w
  else upd (set_busy false) w.

(** The browser takes the callback [p] off its list. *)
Definition dequeue (p : Handle) (w : World) : World :=
  upd_host (λ h, set_pending (filter (λ q, q ≠ p) (pending h)) h) w.

(** What a page and the browser do to a worker. *)
Inductive Op : Type :=
| OAppend (fn : Callable) (args : list JsValue)
| OStart
| OStop
| OClear
| OSetJobsPerFrameRequest (value : option Q)
| OSetOnStart (value : Callback)
| OSetOnStop (value : Callback)
| OSetOnBreak (value : Callback)
| OSetOnJob (value : Callback)
| OSetOnFrameRequest (value : Callback)
| OSetOnComplete (value : Callback)
| OFire (p : Handle).

Definition fire (p : Handle) (w : World) : World :=
  if bool_decide (p ∈ pending (host w)) then fst (_worker (dequeue p w))
  else w.

Definition step (w : World) (op : Op) : World :=
  match op with
  | OAppend fn args => append fn args w
  | OStart => start w
  | OStop => stop w
  | OClear => clear w
  | OSetJobsPerFrameRequest value => jobsPerFrameRequest_set value w
  | OSetOnStart value => onStart_set value w
  | OSetOnStop value => onStop_set value w
  | OSetOnBreak value => onBreak_set value w
  | OSetOnJob value => onJob_set value w
  | OSetOnFrameRequest value => onFrameRequest_set value w
  | OSetOnComplete value => onComplete_set value w
  | OFire p => fire p w
  end.

Definition run (ops : list Op) (w : World) : World := foldl step w ops.

End Single.

(** The number of indices below a limit: the [index] of a counting loop
    passes the test [index < limit] exactly [quota limit] times. *)
Definition quota (limit : Q) : nat := Z.to_nat (Qceiling limit).

(** The handler setters of the single-handler worker, each with the signal
    its handler is called for. *)
Definition single_setters : list ((Callback → Single.World → Single.World) * string) :=
  [ (Single.onStart_set, "start"); (Single.onStop_set, "stop");
    (Single.onBreak_set, "break"); (Single.onJob_set, "job");
    (Single.onFrameRequest_set, "frameRequest");
    (Single.onComplete_set, "complete") ]%string.

(** The world of the single-handler worker once the loop has taken [k] jobs
    off the list and completed [c] of them. *)
Definition single_after (w : Single.World) (k c : nat) (d : Data)
    (t : list Single.LogEntry) : Single.World :=
  Single.mkWorld
    (Single.mkWorker (Single._busy (Single.this w)) d
       (drop k (Single._jobList (Single.this w)))
       (Single._jobsPerFrameRequest (Single.this w))
       (Single._interval (Single.this w))
       (Single._jobsComplete (Single.this w) + c)
       (Single._jobsCount (Single.this w))
       (Single._onStart (Single.this w)) (Single._onStop (Single.this w))
       (Single._onBreak (Single.this w)) (Single._onJob (Single.this w))
       (Single._onFrameRequest (Single.this w)) (Single._onComplete (Single.this w)))
    (Single.host w) (Single.raf_available w) (t ++ Single.trace w).

(** A callable that returns, whatever the shared data. *)
Definition never_throws (fn : Callable) (args : list JsValue) : Prop :=
  ∀ d, (fn args d).2 = None.

(** What [_worker] of the single-handler worker does on each of its paths. *)
Definition single_worker_post (w w' : Single.World) (rep : Single.Report) : Prop :=
  let jobs := Single._jobList (Single.this w) in
  match Single.outcome rep with
  | Single.Stopped =>
      Single.busy w = false ∧ w' = Single._stop w ∧ Single.invoked rep = []
  | Single.Threw job e =>
      Single.busy w = true ∧
      ∃ d t k,
        jobs !! k = Some job
        ∧ Single.invoked rep = take (S k) jobs
        ∧ w' = single_after w (S k) k d t
  | Single.Broken => False
  | Single.Continued =>
      Single.busy w = true ∧
      ∃ d t k,
        k < length jobs
        ∧ Single.invoked rep = take k jobs
        ∧ w' = Single._continue (single_after w k k d t)
  | Single.Completed =>
      Single.busy w = true ∧
      ∃ d t,
        Single.invoked rep = jobs
        ∧ w' = Single.clear
                 (Single.upd (Single.set_interval (-1))
                    (Single.upd (Single.set_busy false)
                       (single_after w (length jobs) (length jobs) d t)))
  end.


(** A single-handler worker that has completed one of two jobs. *)
Definition single_world_halfway : Single.World :=
  Single.run [Single.OAppend returns []; Single.OAppend returns [];
              Single.OStart; Single.OFire (Raf 1)] (Single.new_world true).

(** ** The counting worker with listeners

    The first prototype of [src/unnamed/part_000] (lines 41-393): listener
    lists as in the weighted worker, jobs counted by [jobsPerFrameRequest],
    no weights, no priorities, no error signal and no [try]. *)
Module Counting.

Record Worker : Type := mkWorker {
  _busy : bool;
  _data : Data;
  _eventListener : gmap string (list Listener);
  _jobList : list Single.Job;
  _jobsPerFrameRequest : Q;
  _workOnInactive : bool;
  _interval : Z;
  _jobsComplete : nat;
  _jobsCount : nat
}.

Inductive LogEntry : Type :=
| LEmit (name : string)
| LListener (id : nat) (ev : Event)
| LJob (job : Single.Job).

Record World : Type := mkWorld {
  this : Worker;
  host : Host;
  trace : list LogEntry
}.

Definition set_busy (v : bool) (o : Worker) : Worker :=
  mkWorker v (_data o) (_eventListener o) (_jobList o) (_jobsPerFrameRequest o)
           (_workOnInactive o) (_interval o) (_jobsComplete o) (_jobsCount o).

Definition set_data (v : Data) (o : Worker) : Worker :=
  mkWorker (_busy o) v (_eventListener o) (_jobList o) (_jobsPerFrameRequest o)
           (_workOnInactive o) (_interval o) (_jobsComplete o) (_jobsCount o).

Definition set_eventListener (v : gmap string (list Listener)) (o : Worker) : Worker :=
  mkWorker (_busy o) (_data o) v (_jobList o) (_jobsPerFrameRequest o)
           (_workOnInactive o) (_interval o) (_jobsComplete o) (_jobsCount o).

Definition set_jobList (v : list Single.Job) (o : Worker) : Worker :=
  mkWorker (_busy o) (_data o) (_eventListener o) v (_jobsPerFrameRequest o)
           (_workOnInactive o) (_interval o) (_jobsComplete o) (_jobsCount o).

Definition set_jobsPerFrameRequest (v : Q) (o : Worker) : Worker :=
  mkWorker (_busy o) (_data o) (_eventListener o) (_jobList o) v
           (_workOnInactive o) (_interval o) (_jobsComplete o) (_jobsCount o).

Definition set_workOnInactive (v : bool) (o : Worker) : Worker :=
  mkWorker (_busy o) (_data o) (_eventListener o) (_jobList o) (_jobsPerFrameRequest o)
           v (_interval o) (_jobsComplete o) (_jobsCount o).

Definition set_interval (v : Z) (o : Worker) : Worker :=
  mkWorker (_busy o) (_data o) (_eventListener o) (_jobList o) (_jobsPerFrameRequest o)
           (_workOnInactive o) v (_jobsComplete o) (_jobsCount o).

Definition set_jobsComplete (v : nat) (o : Worker) : Worker :=
  mkWorker (_busy o) (_data o) (_eventListener o) (_jobList o) (_jobsPerFrameRequest o)
           (_workOnInactive o) (_interval o) v (_jobsCount o).

Definition set_jobsCount (v : nat) (o : Worker) : Worker :=
  mkWorker (_busy o) (_data o) (_eventListener o) (_jobList o) (_jobsPerFrameRequest o)
           (_workOnInactive o) (_interval o) (_jobsComplete o) v.

Definition upd (f : Worker → Worker) (w : World) : World :=
  mkWorld (f (this w)) (host w) (trace w).

Definition upd_host (f : Host → Host) (w : World) : World :=
  mkWorld (this w) (f (host w)) (trace w).

Definition log (e : LogEntry) (w : World) : World :=
  mkWorld (this w) (host w) (e :: trace w).

Definition _signals : list string :=
  [ "start"; "stop"; "break"; "job"; "framerequest"; "complete" ]%string.

Definition _init : Worker :=
  {| _busy := false;
     _data := ∅;
     _eventListener := ∅;
     _jobList := [];
     _jobsPerFrameRequest := 1;
     _workOnInactive := true;
     _interval := -1;
     _jobsComplete := 0;
     _jobsCount := 0 |}.

Definition new_world (v : bool) : World :=
  {| this := _init; host := mkHost v false 0 0 []; trace := [] |}.

Definition browserActive (w : World) : bool := visible (host w).
Definition busy (w : World) : bool := _busy (this w).
Definition data (w : World) : Data := _data (this w).
Definition jobsPerFrameRequest (w : World) : Q := _jobsPerFrameRequest (this w).
Definition workOnInactive (w : World) : bool := _workOnInactive (this w).

(** [Math.max(value*1 || 0, 1)] *)
Definition jobsPerFrameRequest_set (value : option Q) (w : World) : World :=
  let v := default 0%Q value in
  upd (set_jobsPerFrameRequest (if Qle_bool 1 v then v else 1%Q)) w.

Definition workOnInactive_set (value : bool) (w : World) : World :=
  upd (set_workOnInactive value) w.

Definition snapshot (eventName : string) (w : World) : Event :=
  {| ev_eventName := eventName;
     ev_busy := busy w;
     ev_interval := _interval (this w);
     ev_jobsComplete := _jobsComplete (this w);
     ev_jobsCount := _jobsCount (this w) |}.

Fixpoint call_listeners (ls : list Listener) (event : Event) (result : JsValue)
    (w : World) : JsValue * World :=
  match ls with
  | [] => (result, w)
  | l :: ls' =>
      let '(d, r) := listener_call l event (data w) in
      let w := log (LListener (listener_id l) event) (upd (set_data d) w) in
      call_listeners ls' event (if is_false r then VBool false else result) w
  end.

Definition _emit (eventName : string) (w : World) : JsValue * World :=
  let w := log (LEmit eventName) w in
  match _eventListener (this w) !! eventName with
  | None => (VUndefined, w)
  | Some ls => call_listeners ls (snapshot eventName w) VUndefined w
  end.

Definition _continue (w : World) : World :=
  if browserActive w then
    let '(id, h) := requestAnimationFrame (host w) in
    upd (set_interval id) (upd_host (λ _, h) w)
  else
    let '(id, h) := setTimeout (host w) in
    upd (set_interval id) (upd_host (λ _, h) w).

Definition _stop (w : World) : World :=
  let w := upd (set_interval (-1)) w in
  snd (_emit "stop" w).

Definition _break (w : World) : World :=
  let w := upd (set_interval (-1)) w in
  snd (_emit "break" w).

Definition clear (w : World) : World :=
  let w := upd_host (cancelAnimationFrame (_interval (this w))) w in
  let w := upd_host (clearInterval (_interval (this w))) w in
  let w := upd_host (bind_visibilitychange false) w in
  let w := upd (set_busy false) w in
  let w := upd (set_interval (-1)) w in
  let w := upd (set_jobList []) w in
  let w := upd (set_jobsComplete 0) w in
  upd (set_jobsCount (length (_jobList (this w)))) w.

Definition _complete (w : World) : World :=
  let w := upd (set_busy false) w in
  let w := upd (set_interval (-1)) w in
  let w := snd (_emit "complete" w) in
  clear w.

(** [var count] of [_worker]: the budget of the invocation. *)
Definition count (w : World) : Q :=
  Counted.count (Counted.mkWorker (jobsPerFrameRequest w) (workOnInactive w))
                (browserActive w).

(** How the [while] loop of [_worker] is left. *)
Inductive LoopExit : Type :=
| ExitLoop                                     (* condition false, or [break] *)
| ExitThrow (job : Single.Job) (e : JsValue)   (* the callable throws: no [try] *)
| ExitPrevented.                               (* [return this._break()] *)

(** The [while] loop.  [jobs] is [this._jobList], which the loop shifts one
    job at a time. *)
Fixpoint execute (count : Q) (jobs : list Single.Job) (index : nat) (w : World)
    : LoopExit * list Single.Job * World :=
  match jobs with
  | job :: rest =>
      if Qgt_bool count (inject_Z (Z.of_nat index)) then
        let w := upd (set_jobList rest) w in
        let w := log (LJob job) w in
        let '(d, thrown) := Single.job_fn job (Single.job_args job) (data w) in
        let w := upd (set_data d) w in
        match thrown with
        | Some e => (ExitThrow job e, [job], w)
        | None =>
            let w := upd (set_jobsComplete (S (_jobsComplete (this w)))) w in
            let index := S index in
            let '(r, w) := _emit "job" w in
            if is_false r then (ExitPrevented, [job], w)
            else if browserActive w
                    && Qle_bool (jobsPerFrameRequest w) (inject_Z (Z.of_nat index))
            then (ExitLoop, [job], w)
            else
              let '(x, jobs', w) := execute count rest index w in
              (x, job :: jobs', w)
        end
      else (ExitLoop, [], w)
  | [] => (ExitLoop, [], w)
  end.

Inductive Outcome : Type :=
| Stopped
| Threw (job : Single.Job) (e : JsValue)
| BrokenByJobListener
| BrokenByFrameListener
| Continued
| Completed.

Record Report : Type := mkReport {
  outcome : Outcome;
  invoked : list Single.Job
}.

Definition _worker (w : World) : World * Report :=
  if negb (busy w) then (_stop w, mkReport Stopped [])
  else
    match execute (count w) (_jobList (this w)) 0 w with
    | (ExitThrow job e, jobs, w) => (w, mkReport (Threw job e) jobs)
    | (ExitPrevented, jobs, w) => (_break w, mkReport BrokenByJobListener jobs)
    | (ExitLoop, jobs, w) =>
        let '(r, w) := _emit "framerequest" w in
        if is_false r then (_break w, mkReport BrokenByFrameListener jobs)
        else
          match _jobList (this w) with
          | _ :: _ => (_continue w, mkReport Continued jobs)
          | [] => (_complete w, mkReport Completed jobs)
          end
    end.

(** [append(fn, ...args)] *)
Definition append (fn : Callable) (args : list JsValue) (w : World) : World :=
  let w := upd (set_jobList (_jobList (this w) ++ [Single.mkJob fn args])) w in
  upd (set_jobsCount (S (_jobsCount (this w)))) w.

Definition start (w : World) : World :=
  if busy w then w
  else
    let w := upd_host (bind_visibilitychange true) w in
    let w := upd (set_busy true) w in
    let w := snd (_emit "start" w) in
    _continue w.

Definition stop (w : World) : World :=
  if negb (busy w) then w
  else
    let w := upd_host (bind_visibilitychange false) w in
    upd (set_busy false) w.

Definition invalid_signal_message : string :=
  "AsyncWorker: Failed to execute 'addEventListener', the eventName argument must be valid signal ("
  +:+ String.concat "," _signals +:+ ").".

Definition invalid_callback_message : string :=
  "AsyncWorker: Failed to execute 'addEventListener', the callback argument must be function.".

Definition addEventListener (eventName : string) (callback : Callback) (w : World)
    : string + World :=
  if bool_decide (eventName ∉ _signals) then inl invalid_signal_message
  else
    match callback with
    | NotAFunction => inl invalid_callback_message
    | IsFunction l =>
        let ls := default [] (_eventListener (this w) !! eventName) in
        inr (upd (set_eventListener (<[eventName := ls ++ [l]]> (_eventListener (this w)))) w)
    end.

End Counting.




(** * Properties *)

(** ** What listeners can change *)

(** Calling listeners changes the shared data and extends the trace by
    listener entries; nothing else. *)
Lemma call_listeners_frame ls ev r w :
  ∃ d t,
    (call_listeners ls ev r w).2
      = mkWorld (set_data d (this w)) (host w) (t ++ trace w) (next_job_id w)
    ∧ Forall is_listener_entry t.
Proof.
  revert r w. induction ls as [|l ls IH]; intros r w.
  - exists (_data (this w)), []. destruct w as [[] ? ? ?]. simpl. auto.
  - simpl. destruct (listener_call l ev (data w)) as [d1 r1].
    destruct (IH (if is_false r1 then VBool false else r)
                 (log (LListener (listener_id l) ev) (upd (set_data d1) w)))
      as (d & t & E & Ht).
    exists d, (t ++ [LListener (listener_id l) ev]). split.
    + rewrite E. simpl. by rewrite <- app_assoc.
    + apply Forall_app. split; [done|]. by repeat constructor.
Qed.

Lemma emit_frame name w :
  ∃ d t,
    (_emit name w).2
      = mkWorld (set_data d (this w)) (host w) (t ++ LEmit name :: trace w)
                (next_job_id w)
    ∧ Forall is_listener_entry t.
Proof.
  unfold _emit. simpl.
  destruct (_eventListener (this w) !! name) as [ls|].
  - destruct (call_listeners_frame ls (snapshot name (log (LEmit name) w))
                VUndefined (log (LEmit name) w)) as (d & t & E & Ht).
    exists d, t. by rewrite E.
  - exists (_data (this w)), []. destruct w as [[] ? ? ?]. simpl. auto.
Qed.

(** The value of [_emit] is [undefined] or [false]. *)
Lemma call_listeners_result ls ev r w :
  (call_listeners ls ev r w).1 = r ∨ (call_listeners ls ev r w).1 = VBool false.
Proof.
  revert r w. induction ls as [|l ls IH]; intros r w; simpl; [by left|].
  destruct (listener_call l ev (data w)) as [d1 r1].
  destruct (is_false r1); [|apply IH].
  destruct (IH (VBool false) (log (LListener (listener_id l) ev) (upd (set_data d1) w)));
    by right.
Qed.

(** A listener that returns [false] whatever it is given makes [_emit]
    return [false]. *)
Lemma call_listeners_prevented ls ev r w l :
  l ∈ ls → (∀ ev' d, (listener_call l ev' d).2 = VBool false) →
  (call_listeners ls ev r w).1 = VBool false.
Proof.
  intros Hin Hl. revert r w.
  induction ls as [|l0 ls IH]; intros r w; [by apply elem_of_nil in Hin|].
  simpl. destruct (listener_call l0 ev (data w)) as [d1 r1] eqn:E.
  apply elem_of_cons in Hin as [<-|Hin]; [|by apply IH].
  specialize (Hl ev (data w)). rewrite E in Hl. simpl in Hl. subst r1. simpl.
  match goal with |- (call_listeners ls ev ?r0 ?w0).1 = _ =>
    destruct (call_listeners_result ls ev r0 w0) as [-> | ->] end; done.
Qed.

(** Listeners that never return [false] leave the value of [_emit] at
    [undefined]: other falsy values do not count. *)
Lemma call_listeners_not_prevented ls ev r w :
  Forall (λ l, ∀ ev' d, is_false (listener_call l ev' d).2 = false) ls →
  (call_listeners ls ev r w).1 = r.
Proof.
  intros Hls. revert r w. induction Hls as [|l ls Hl _ IH]; intros r w; [done|].
  simpl. destruct (listener_call l ev (data w)) as [d1 r1] eqn:E.
  specialize (Hl ev (data w)). rewrite E in Hl. simpl in Hl. rewrite Hl.
  apply IH.
Qed.

(** ** The execution loop *)

(** The loop removes [k] jobs from the head of the list and counts them as
    complete; a throwing job is put back; it touches no other field than
    [_data] and [_error]. *)
Lemma execute_spec todo wt w x jobs w' :
  execute todo wt w = (x, jobs, w') →
  ∃ d t k err,
    w' = mkWorld
           (mkWorker err (_busy (this w)) d (_eventListener (this w))
                     (drop k (_jobList (this w))) (_workOnInactive (this w))
                     (_interval (this w)) (_jobsComplete (this w) + k)
                     (_jobsCount (this w)))
           (host w) (t ++ trace w) (next_job_id w)
    ∧ k ≤ todo ∧ k ≤ length (_jobList (this w))
    ∧ match x with
      | ExitCatch job e =>
          jobs = take (S k) (_jobList (this w))
          ∧ _jobList (this w) !! k = Some job
          ∧ err = Some e ∧ k < todo
          ∧ ∃ t1 t2, t = t1 ++ LEmit "error" :: t2 ∧ Forall is_listener_entry t1
      | ExitPrevented =>
          jobs = take k (_jobList (this w)) ∧ 1 ≤ k ∧ err = _error (this w)
      | ExitLoop =>
          jobs = take k (_jobList (this w)) ∧ err = _error (this w)
      end.
Proof.
  revert wt w x jobs w'.
  induction todo as [|todo IH]; intros wt w x jobs w' H.
  { simpl in H. injection H as <- <- <-.
    exists (_data (this w)), [], 0, (_error (this w)).
    destruct w as [[] ? ? ?]; simpl. rewrite Nat.add_0_r. repeat split; lia. }
  simpl in H. destruct (_jobList (this w)) as [|job rest] eqn:Ejl.
  { injection H as <- <- <-.
    exists (_data (this w)), [], 0, (_error (this w)).
    destruct w as [[] ? ? ?]; simpl in *. rewrite Nat.add_0_r, Ejl.
    repeat split; lia. }
  unfold data in H. simpl in H.
  destruct (job_fn job (job_args job) (_data (this w))) as [d1 [e|]] eqn:Ecall.
  - (* the callable throws *)
    match type of H with (_, _, (_emit ?n ?w0).2) = _ =>
      destruct (emit_frame n w0) as (d & t & E & Ht); rewrite E in H end.
    injection H as <- <- <-. simpl.
    exists d, (t ++ [LEmit "error"; LJob job]), 0, (Some e).
    rewrite Nat.add_0_r, <- app_assoc. simpl.
    repeat split; try done; try lia.
    exists t, [LJob job]. done.
  - (* it returns *)
    match type of H with context [_emit ?n ?w0] =>
      destruct (emit_frame n w0) as (d & t & E & Ht);
      destruct (_emit n w0) as [r w1] end.
    simpl in E. subst w1.
    destruct (is_false r).
    { injection H as <- <- <-. simpl.
      exists d, (t ++ [LEmit "job"; LJob job]), 1, (_error (this w)).
      rewrite <- app_assoc, Nat.add_1_r. simpl. rewrite drop_0, take_0.
      repeat split; try done; lia. }
    unfold browserActive in H. simpl in H.
    destruct (visible (host w) && Qgt_bool (wt + job_weight job) 1).
    { injection H as <- <- <-. simpl.
      exists d, (t ++ [LEmit "job"; LJob job]), 1, (_error (this w)).
      rewrite <- app_assoc, Nat.add_1_r. simpl. rewrite drop_0, take_0.
      repeat split; try done; lia. }
    match type of H with context [execute todo ?wt0 ?w0] =>
      destruct (execute todo wt0 w0) as [[x0 jobs0] w2] eqn:Eex end.
    injection H as <- <- <-.
    apply IH in Eex as (d2 & t2 & k & err & -> & Hk1 & Hk2 & Hx). simpl in *.
    exists d2, (t2 ++ t ++ [LEmit "job"; LJob job]), (S k), err.
    rewrite <- !app_assoc. simpl.
    rewrite Nat.add_succ_r.
    split; [done|]. split; [lia|]. split; [lia|].
    destruct x0.
    + destruct Hx as (-> & ->). done.
    + destruct Hx as (-> & Hl & -> & Hlt & t3 & t4 & -> & Ht3).
      repeat split; try done; try lia.
      exists t3, (t4 ++ t ++ [LEmit "job"; LJob job]).
      by rewrite <- !app_assoc.
    + destruct Hx as (-> & Hge & ->). repeat split; try done; lia.
Qed.

(** ** One invocation of [_worker] *)

Ltac norm_app := repeat (rewrite <- app_assoc; simpl).

Lemma worker_spec w w' rep : _worker w = (w', rep) → worker_post w w' rep.
Proof.
  unfold _worker, worker_post. destruct (busy w) eqn:Eb; simpl.
  2:{ intros [= <- <-]. done. }
  fold (batch_size w).
  destruct (execute (batch_size w) 0 w) as [[x jobs] w1] eqn:Eex.
  apply execute_spec in Eex as (d & t & k & err & -> & Hk1 & Hk2 & Hx).
  fold (after_jobs w k err d t).
  destruct x.
  - (* the loop ends *)
    destruct Hx as (-> & ->).
    match goal with |- context [_emit ?n ?w0] =>
      destruct (emit_frame n w0) as (d' & t' & E & Ht');
      destruct (_emit n w0) as [r w2] end.
    simpl in E. subst w2. destruct (is_false r).
    + intros [= <- <-]. simpl. split; [done|].
      unfold _break.
      match goal with |- context [_emit ?n ?w0] =>
        destruct (emit_frame n w0) as (d2 & t2 & E & Ht2); rewrite E end.
      exists k, d2, (t2 ++ LEmit "break" :: t' ++ LEmit "framerequest" :: t).
      repeat split; try done.
      * unfold upd, after_jobs. simpl. by norm_app.
      * by exists t2, (t' ++ LEmit "framerequest" :: t).
    + simpl. destruct (drop k (_jobList (this w))) as [|j0 rest0] eqn:Edrop.
      * intros [= <- <-]. simpl. split; [done|].
        assert (k = length (_jobList (this w))) as Hk.
        { apply (f_equal length) in Edrop. rewrite length_drop in Edrop.
          simpl in Edrop. lia. }
        unfold _complete.
        match goal with |- context [_emit ?n ?w0] =>
          destruct (emit_frame n w0) as (d2 & t2 & E & Ht2); rewrite E end.
        exists k, d2, (t2 ++ LEmit "complete" :: t' ++ LEmit "framerequest" :: t).
        repeat split; try done.
        -- rewrite Hk. apply firstn_all.
        -- unfold upd, after_jobs. simpl. rewrite Edrop. by norm_app.
        -- by exists t2, (t' ++ LEmit "framerequest" :: t).
      * intros [= <- <-]. simpl. split; [done|].
        assert (k < length (_jobList (this w))) as Hk.
        { apply (f_equal length) in Edrop. rewrite length_drop in Edrop.
          simpl in Edrop. lia. }
        exists k, d', (t' ++ LEmit "framerequest" :: t).
        repeat split; try done.
        -- unfold after_jobs. simpl. rewrite Edrop. by norm_app.
        -- by exists t', t.
  - (* the callable throws *)
    destruct Hx as (-> & Hl & -> & Hlt & He).
    intros [= <- <-]. simpl. split; [done|].
    exists k, d, t. repeat split; try done.
  - (* a job listener returns false *)
    destruct Hx as (-> & Hge & ->).
    intros [= <- <-]. simpl. split; [done|].
    unfold _break.
    match goal with |- context [_emit ?n ?w0] =>
      destruct (emit_frame n w0) as (d2 & t2 & E & Ht2); rewrite E end.
    exists k, d2, (t2 ++ LEmit "break" :: t).
    repeat split; try done.
    + unfold upd, after_jobs. simpl. by norm_app.
    + by exists t2, t.
Qed.

(** ** The job list *)

Lemma Qgt_bool_false a b : Qgt_bool a b = false ↔ (a <= b)%Q.
Proof.
  unfold Qgt_bool. rewrite negb_false_iff. apply Qle_bool_iff.
Qed.

(** [append] clamps every weight into (0, 1]. *)
Lemma make_job_weight_ok a id : weight_ok (make_job a id).
Proof.
  unfold weight_ok, make_job. simpl.
  destruct (Qle_bool (default 0%Q (arg_weight a)) 0) eqn:E1; simpl; [lra|].
  destruct (Qgt_bool (default 0%Q (arg_weight a)) 1) eqn:E2; simpl; [lra|].
  apply Qgt_bool_false in E2. split; [|done].
  apply Qnot_le_lt. intros Hle. apply Qle_bool_iff in Hle. congruence.
Qed.

Lemma insert_job_perm a l : insert_job a l ≡ₚ a :: l.
Proof.
  induction l as [|b l IH]; simpl; [done|].
  destruct (compareFn a b <=? 0)%Z; [done|].
  rewrite IH. apply Permutation_swap.
Qed.

Lemma sort_perm l : sort l ≡ₚ l.
Proof.
  induction l as [|a l IH]; simpl; [done|].
  by rewrite insert_job_perm, IH.
Qed.

(** Inserting [a] keeps the list in order when [a] is older than every job
    of its own priority. *)
Lemma insert_job_sorted a l :
  StronglySorted job_before l →
  (∀ b, b ∈ l → job_priority b = job_priority a → job_id a < job_id b) →
  StronglySorted job_before (insert_job a l).
Proof.
  induction 1 as [|b l Hl IH Hb]; intros Hold; simpl.
  { repeat constructor. }
  unfold compareFn. destruct (Z.leb_spec (job_priority a - job_priority b) 0) as [Hle|Hgt].
  - constructor; [by constructor|].
    apply Forall_forall. intros y Hy.
    assert (job_priority b ≤ job_priority y)%Z as Hby.
    { apply elem_of_cons in Hy as [->|Hy]; [lia|].
      rewrite Forall_forall in Hb. destruct (Hb y Hy) as [?|[? ?]]; lia. }
    destruct (decide (job_priority a = job_priority y)) as [Heq|Hne].
    + right. split; [done|]. by apply Hold.
    + left. lia.
  - constructor.
    + apply IH. intros y Hy. apply Hold. by right.
    + rewrite insert_job_perm. constructor; [|done]. left. lia.
Qed.

(** Pushing a job newer than all the others and sorting keeps the order. *)
Lemma sort_push_sorted l a :
  StronglySorted job_before l →
  Forall (λ b, job_id b < job_id a) l →
  StronglySorted job_before (sort (l ++ [a])).
Proof.
  induction 1 as [|b l Hl IH Hb]; intros Hnew; simpl.
  { repeat constructor. }
  apply Forall_cons in Hnew as [Hba Hnew].
  apply insert_job_sorted; [by apply IH|].
  intros y Hy Hp. rewrite sort_perm in Hy.
  apply elem_of_app in Hy as [Hy|Hy].
  - rewrite Forall_forall in Hb. destruct (Hb y Hy) as [?|[? ?]]; lia.
  - apply list_elem_of_singleton in Hy as ->. done.
Qed.

Lemma StronglySorted_drop {A} (R : A → A → Prop) k l :
  StronglySorted R l → StronglySorted R (drop k l).
Proof.
  revert l. induction k as [|k IH]; intros l Hl; [by rewrite drop_0|].
  destruct l as [|a l]; [done|]. simpl. apply IH. by inversion Hl.
Qed.

(** ** The invariant of every run *)

Lemma Inv_queue w w' : queue w' = queue w → Inv w → Inv w'.
Proof.
  unfold queue. intros [= E1 E2 E3 E4] [H1 H2 H3 H4].
  split; rewrite ?E1, ?E2, ?E3, ?E4; done.
Qed.

Lemma Inv_new v : Inv (new_world v).
Proof. split; simpl; by constructor. Qed.

Lemma Inv_clear w : Inv (clear w).
Proof. split; simpl; by constructor. Qed.

Lemma Inv_append a w : Inv w → Inv (append a w).
Proof.
  intros [H1 H2 H3 H4]. split; simpl.
  - rewrite sort_perm, length_app. simpl. lia.
  - rewrite sort_perm. apply Forall_app. split; [done|].
    repeat constructor; apply make_job_weight_ok.
  - apply sort_push_sorted; done.
  - rewrite sort_perm. apply Forall_app. split.
    + eapply Forall_impl; [done|]. simpl. lia.
    + repeat constructor.
Qed.

(** Completing [k] jobs keeps the invariant. *)
Lemma Inv_drop w w' k :
  k ≤ length (_jobList (this w)) →
  _jobList (this w') = drop k (_jobList (this w)) →
  _jobsComplete (this w') = _jobsComplete (this w) + k →
  _jobsCount (this w') = _jobsCount (this w) →
  next_job_id w' = next_job_id w →
  Inv w → Inv w'.
Proof.
  intros Hk E1 E2 E3 E4 [H1 H2 H3 H4].
  split; rewrite ?E1, ?E2, ?E3, ?E4.
  - rewrite length_drop. lia.
  - by apply Forall_drop.
  - by apply StronglySorted_drop.
  - by apply Forall_drop.
Qed.

Lemma emit_queue name w : queue (_emit name w).2 = queue w.
Proof. destruct (emit_frame name w) as (d & t & -> & _). done. Qed.

Lemma continue_queue w : queue (_continue w) = queue w.
Proof. unfold _continue. by destruct (browserActive w). Qed.

Lemma start_queue w : queue (start w) = queue w.
Proof.
  unfold start. destruct (busy w); [done|].
  by rewrite continue_queue, emit_queue.
Qed.

Lemma stop_queue w : queue (stop w) = queue w.
Proof. unfold stop. by destruct (busy w). Qed.

Lemma handleVisibilityChange_queue w : queue (_handleVisibilityChange w) = queue w.
Proof.
  unfold _handleVisibilityChange.
  destruct (negb (busy w) || browserActive w); [done|].
  by rewrite continue_queue.
Qed.

Lemma addEventListener_queue n c w w' :
  addEventListener n c w = inr w' → queue w' = queue w.
Proof.
  unfold addEventListener. case_bool_decide; [done|].
  destruct c; [done|]. by intros [= <-].
Qed.

Lemma removeEventListener_queue n c w : queue (removeEventListener n c w) = queue w.
Proof.
  unfold removeEventListener.
  destruct (_eventListener (this w) !! n); [|done]. by destruct c.
Qed.

Lemma Inv_worker w w' rep : _worker w = (w', rep) → Inv w → Inv w'.
Proof.
  intros H%worker_spec HI. unfold worker_post in H.
  destruct (outcome rep).
  - destruct H as (_ & -> & _). unfold _stop.
    eapply Inv_queue; [apply emit_queue|]. by apply (Inv_queue w).
  - destruct H as (_ & k & d & t & _ & Hl & _ & -> & _).
    apply lookup_lt_Some in Hl.
    eapply (Inv_drop w _ k); try done. lia.
  - destruct H as (_ & k & d & t & _ & _ & Hl & _ & -> & _).
    by eapply (Inv_drop w _ k).
  - destruct H as (_ & k & d & t & _ & Hl & _ & -> & _).
    by eapply (Inv_drop w _ k).
  - destruct H as (_ & k & d & t & _ & Hl & _ & -> & _).
    eapply Inv_queue; [apply continue_queue|].
    eapply (Inv_drop w _ k); try done. lia.
  - destruct H as (_ & k & d & t & _ & _ & _ & -> & _). apply Inv_clear.
Qed.

Lemma Inv_dequeue p w : Inv w → Inv (dequeue p w).
Proof. by apply Inv_queue. Qed.

Lemma Inv_step w op : Inv w → Inv (step w op).
Proof.
  intros HI. destruct op; simpl.
  - by apply Inv_append.
  - eapply Inv_queue; [apply start_queue|done].
  - eapply Inv_queue; [apply stop_queue|done].
  - apply Inv_clear.
  - apply Inv_clear.
  - by apply (Inv_queue w).
  - destruct (addEventListener eventName callback w) as [|w'] eqn:E; [done|].
    eapply Inv_queue; [by eapply addEventListener_queue|done].
  - eapply Inv_queue; [apply removeEventListener_queue|done].
  - unfold fire. case_bool_decide; [|done].
    destruct (_worker (dequeue p w)) as [w' rep] eqn:E.
    eapply Inv_worker; [done|]. by apply Inv_dequeue.
  - unfold visibilitychange. simpl.
    destruct (visibilitychange_bound (host w)).
    + eapply Inv_queue; [apply handleVisibilityChange_queue|]. by apply (Inv_queue w).
    + by apply (Inv_queue w).
Qed.

Lemma Inv_run ops w : Inv w → Inv (run ops w).
Proof.
  revert w. induction ops as [|op ops IH]; intros w HI; [done|].
  simpl. apply IH. by apply Inv_step.
Qed.

(** ** Batch selection *)

Lemma weightMax_cases w : weightMax w = 1%Q ∨ weightMax w = 25%Q.
Proof.
  unfold weightMax. destruct (negb (workOnInactive w) || browserActive w); auto.
Qed.

Lemma weightMax_ge_1 w : (1 <= weightMax w)%Q.
Proof. destruct (weightMax_cases w) as [-> | ->]; lra. Qed.

Lemma count_jobs_shift wm jobs wt c :
  count_jobs wm jobs wt c = c + count_jobs wm jobs wt 0.
Proof.
  revert wt c. induction jobs as [|j jobs IH]; intros wt c; simpl; [lia|].
  destruct (Qgt_bool (job_weight j + wt) wm); [lia|].
  rewrite (IH _ (S c)), (IH _ 1). lia.
Qed.

(** A head job that fits the budget is selected. *)
Lemma count_jobs_head wm j jobs :
  (job_weight j <= wm)%Q → 1 ≤ count_jobs wm (j :: jobs) 0 0.
Proof.
  intros Hw. simpl.
  assert (Qgt_bool (job_weight j + 0) wm = false) as ->.
  { apply Qgt_bool_false. lra. }
  rewrite count_jobs_shift. lia.
Qed.





(** A busy worker whose first job fits the budget runs that job first. *)
Lemma worker_invokes_head w j rest :
  busy w = true →
  _jobList (this w) = j :: rest →
  (job_weight j <= 1)%Q →
  ∃ jobs, invoked (_worker w).2 = j :: jobs.
Proof.
  intros Hb Hl Hj. unfold _worker. rewrite Hb. simpl.
  pose proof (count_jobs_head (weightMax w) j rest) as Hc.
  rewrite <- Hl in Hc. destruct (count_jobs _ _ _ _) as [|n].
  { pose proof (weightMax_ge_1 w). specialize (Hc ltac:(lra)). lia. }
  clear Hc. simpl. rewrite Hl. unfold data. simpl.
  destruct (job_fn j (job_args j) (_data (this w))) as [d [e|]].
  { simpl. eauto. }
  destruct (_emit "job" _) as [r w1].
  destruct (is_false r); [simpl; eauto|].
  destruct (browserActive w1 && _).
  - destruct (_emit "framerequest" w1) as [r2 w2].
    destruct (is_false r2); [simpl; eauto|].
    destruct (_jobList (this w2)); simpl; eauto.
  - destruct (execute n _ w1) as [[x jobs] w2].
    destruct x; simpl; eauto.
    destruct (_emit "framerequest" w2) as [r2 w3].
    destruct (is_false r2); [simpl; eauto|].
    destruct (_jobList (this w3)); simpl; eauto.
Qed.

(** ** The model on the scenarios of the documentation *)

(** The example of the comment of [append]: weights 1/2, 1/2 and four times
    1/4 run in two invocations, the first two jobs in the first. *)
Example weights_scenario :
  let quarter := mkAppendArgs returns None (Some (1 # 4)%Q) None in
  let w := run [OAppend (half returns); OAppend (half returns);
                OAppend quarter; OAppend quarter; OAppend quarter; OAppend quarter;
                OStart] (new_world true) in
  let first := _worker (dequeue (Raf 1) w) in
  let second := _worker (dequeue (Raf 2) first.1) in
  map job_id (invoked first.2) = [0; 1]
  ∧ outcome first.2 = Continued
  ∧ map job_id (invoked second.2) = [2; 3; 4; 5]
  ∧ outcome second.2 = Completed.
Proof. vm_compute. repeat split. Qed.

(** Five jobs of weight 1 take five invocations in a visible document. *)
Example five_jobs_five_ticks :
  let one := mkAppendArgs returns None None None in
  let w := run [OAppend one; OAppend one; OAppend one; OAppend one; OAppend one;
                OStart; OFire (Raf 1); OFire (Raf 2); OFire (Raf 3); OFire (Raf 4)]
               (new_world true) in
  busy w = true ∧ _jobsComplete (this w) = 4 ∧ pending (host w) = [Raf 5]
  ∧ outcome (_worker (dequeue (Raf 5) w)).2 = Completed
  ∧ busy (fire (Raf 5) w) = false
  ∧ pending (host (fire (Raf 5) w)) = [].
Proof. vm_compute. repeat split. Qed.

(** In a hidden document the budget is 25. *)
Example hidden_document_batch :
  let one := mkAppendArgs returns None None None in
  let w := run (replicate 30 (OAppend one) ++ [OStart]) (new_world false) in
  pending (host w) = [Timer 1]
  ∧ length (invoked (_worker (dequeue (Timer 1) w)).2) = 25.
Proof. vm_compute. repeat split. Qed.

(** Jobs of equal priority keep the order of their [append] calls. *)
Example priorities_scenario :
  let prio p := mkAppendArgs returns None None (Some p) in
  let w := run [OAppend (prio 2%Z); OAppend (prio 1%Z); OAppend (prio 1%Z);
                OAppend (prio 0%Z); OAppend (prio 2%Z)] (new_world true) in
  map job_id (_jobList (this w)) = [3; 1; 2; 0; 4].
Proof. vm_compute. reflexivity. Qed.

(** * The claims *)


(** C2.  Whenever the job list of a worker is not empty, the first loop of
    [_worker] selects at least one job, and a busy worker runs the first job
    of the list: the weight of a job is at most 1 and the budget is 1 or 25,
    so a job heavier than the budget does not occur. *)
Theorem batch_selection_progress v ops p :
  let w := dequeue p (run ops (new_world v)) in
  _jobList (this w) ≠ [] →
  1 ≤ batch_size w
  ∧ (busy w = true →
     ∃ j rest jobs,
       _jobList (this w) = j :: rest ∧ invoked (_worker w).2 = j :: jobs).
Proof.
  intros w Hne.
  pose proof (Inv_dequeue p _ (Inv_run ops _ (Inv_new v))) as [_ Hw _ _].
  fold w in Hw.
  destruct (_jobList (this w)) as [|j rest] eqn:Hl; [done|].
  apply Forall_cons in Hw as [[_ Hj] _].
  split.
  - unfold batch_size. rewrite Hl. apply count_jobs_head.
    pose proof (weightMax_ge_1 w). lra.
  - intros Hb. destruct (worker_invokes_head w j rest Hb Hl Hj) as [jobs Hjobs].
    by exists j, rest, jobs.
Qed.

Lemma batch_selection_progress_witness :
  let w := dequeue (Timer 1) (run [OAppend (half returns); OStart] (new_world false)) in
  1 ≤ batch_size w
  ∧ (busy w = true →
     ∃ j rest jobs,
       _jobList (this w) = j :: rest ∧ invoked (_worker w).2 = j :: jobs).
Proof.
  apply (batch_selection_progress false [OAppend (half returns); OStart] (Timer 1)).
  vm_compute. discriminate.
Defined.



Lemma start_requests_tick w :
  busy w = false →
  busy (start w) = true
  ∧ _jobList (this (start w)) = _jobList (this w)
  ∧ ∃ p, pending (host (start w)) = pending (host w) ++ [p].
Proof.
  intros Hb. unfold start. rewrite Hb.
  match goal with |- context [_emit ?n ?w0] =>
    destruct (emit_frame n w0) as (d & t & -> & _) end.
  unfold _continue, browserActive. simpl.
  destruct (visible (host w)); simpl; eauto.
Qed.










(** C7.  In every world [clear] empties the job list, sets both counters to
    0, clears the busy flag, sets [_interval] to -1 and cancels the callback
    that [_interval] named; it calls no listener and emits no signal: the
    trace and the shared data are as before. *)
Theorem clear_is_silent w :
  let w' := clear w in
  _jobList (this w') = []
  ∧ _jobsComplete (this w') = 0
  ∧ _jobsCount (this w') = 0
  ∧ busy w' = false
  ∧ error w' = None
  ∧ _interval (this w') = (-1)%Z
  ∧ (Raf (_interval (this w)) ∉ pending (host w'))
  ∧ (Timer (_interval (this w)) ∉ pending (host w'))
  ∧ trace w' = trace w
  ∧ data w' = data w.
Proof.
  simpl. repeat split; try done.
  - rewrite !list_elem_of_filter. intros (_ & Hne & _). done.
  - rewrite !list_elem_of_filter. intros (Hne & _). done.
Qed.

(** C8, as stated, fails: a callable listener for the name [tick] is
    refused. *)
Lemma addEventListener_refuses_tick :
  addEventListener "tick" (IsFunction veto) (new_world true)
  = inl invalid_signal_message.
Proof. reflexivity. Qed.

(** C8 (amended).  [addEventListener] accepts exactly the names start, stop,
    break, job, framerequest, complete and error: under each of them a
    callable listener is added after the listeners already registered for the
    name, and under any other name the call throws, whatever the callback. *)
Theorem addEventListener_signal_names eventName l w :
  (eventName ∈ ["start"; "stop"; "break"; "job"; "framerequest"; "complete"; "error"]%string
   ↔ ∃ w', addEventListener eventName (IsFunction l) w = inr w')
  ∧ (eventName ∉ ["start"; "stop"; "break"; "job"; "framerequest"; "complete"; "error"]%string
     → ∀ callback, addEventListener eventName callback w = inl invalid_signal_message)
  ∧ ∀ w', addEventListener eventName (IsFunction l) w = inr w' →
          _eventListener (this w') !! eventName
          = Some (default [] (_eventListener (this w) !! eventName) ++ [l]).
Proof.
  unfold addEventListener, _signals.
  case_bool_decide as Hin.
  - split; [split|split].
    + intros Hok. by destruct Hin.
    + by intros [w' ?].
    + done.
    + by intros w' ?.
  - split; [split|split].
    + eauto.
    + done.
    + intros Hno. by destruct Hno.
    + intros w' [= <-]. simpl. apply lookup_insert_eq.
Qed.

(** C9.  The budget of an invocation is the base budget times the throttle
    factor: base 1 and inactive multiplier 25 in the weighted worker,
    base [jobsPerFrameRequest] and inactive multiplier 50 in the counting
    one; both multipliers lie between 25 and 60. *)
Theorem budget_is_base_times_throttle :
  (∀ w, weightMax w == 1 * throttleFactor 25 (workOnInactive w) (browserActive w))%Q
  ∧ (∀ o active,
       Counted.count o active
       = (Counted.jobsPerFrameRequest o
          * throttleFactor 50 (Counted.workOnInactive o) active)%Q)
  ∧ (25 <= 25 <= 60)%Q ∧ (25 <= 50 <= 60)%Q.
Proof.
  split; [|split].
  - intros w. unfold weightMax, throttleFactor.
    destruct (workOnInactive w), (browserActive w); simpl; lra.
  - intros o active. unfold Counted.count, throttleFactor.
    by destruct (Counted.workOnInactive o), active.
  - lra.
Qed.

(** * Further properties of the weighted worker *)

(** X1.  [destroy] does what [clear] does: the call of [stop] before it adds
    nothing. *)
Theorem destroy_is_clear w : destroy w = clear w.
Proof.
  unfold destroy, stop. destruct (busy w); [|done].
  destruct w as [[] [] ? ?]. reflexivity.
Qed.

(** X2.  [stop] cancels nothing and emits nothing; the stop signal comes
    from the next invocation of [_worker], which runs no job, leaves the job
    list and the counters as they are and requests no callback. *)
Theorem stop_is_observed_by_next_invocation w p :
  let w1 := stop w in
  let w2 := (_worker (dequeue p w1)).1 in
  busy w1 = false
  ∧ pending (host w1) = pending (host w)
  ∧ trace w1 = trace w
  ∧ queue w1 = queue w
  ∧ outcome (_worker (dequeue p w1)).2 = Stopped
  ∧ invoked (_worker (dequeue p w1)).2 = []
  ∧ queue w2 = queue w
  ∧ pending (host w2) = pending (host (dequeue p w1))
  ∧ _interval (this w2) = (-1)%Z
  ∧ ∃ t, trace w2 = t ++ LEmit "stop" :: trace w ∧ Forall is_listener_entry t.
Proof.
  simpl.
  assert (busy (stop w) = false) as Hb.
  { unfold stop. by destruct (busy w) eqn:E. }
  assert (pending (host (stop w)) = pending (host w) ∧ trace (stop w) = trace w
          ∧ queue (stop w) = queue w) as (Hp & Ht & Hq).
  { unfold stop. by destruct (busy w). }
  split; [done|]. split; [done|]. split; [done|]. split; [done|].
  unfold _worker.
  assert (busy (dequeue p (stop w)) = false) as -> by done.
  simpl. split; [done|]. split; [done|].
  unfold _stop.
  match goal with |- context [_emit ?n ?w0] =>
    destruct (emit_frame n w0) as (d & t & -> & Hl) end.
  simpl. repeat split; try done.
  exists t. by rewrite Ht.
Qed.

Lemma start_busy w : busy (start w) = true.
Proof.
  destruct (busy w) eqn:Hb.
  - unfold start. by rewrite Hb.
  - by destruct (start_requests_tick w Hb).
Qed.

(** X3.  [start] on a worker that is not busy sets the busy flag, registers
    the visibility handler, emits the start signal and requests exactly one
    callback, an animation frame when the document is visible and a timer
    otherwise; [_interval] names it.  The job list and the counters are
    untouched. *)
Theorem start_requests_one_callback w :
  busy w = false →
  let w' := start w in
  busy w' = true
  ∧ visibilitychange_bound (host w') = true
  ∧ (if browserActive w
     then pending (host w') = pending (host w) ++ [Raf (raf_last (host w) + 1)]
          ∧ _interval (this w') = (raf_last (host w) + 1)%Z
     else pending (host w') = pending (host w) ++ [Timer (timer_last (host w) + 1)]
          ∧ _interval (this w') = (timer_last (host w) + 1)%Z)
  ∧ queue w' = queue w
  ∧ ∃ t, trace w' = t ++ LEmit "start" :: trace w ∧ Forall is_listener_entry t.
Proof.
  intros Hb. simpl. unfold start. rewrite Hb.
  match goal with |- context [_emit ?n ?w0] =>
    destruct (emit_frame n w0) as (d & t & -> & Hl) end.
  unfold _continue, browserActive. simpl.
  destruct (visible (host w)); simpl; repeat split; try done; by exists t.
Qed.

Lemma start_requests_one_callback_witness :
  let w := new_world false in
  let w' := start w in
  busy w' = true
  ∧ visibilitychange_bound (host w') = true
  ∧ (if browserActive w
     then pending (host w') = pending (host w) ++ [Raf (raf_last (host w) + 1)]
          ∧ _interval (this w') = (raf_last (host w) + 1)%Z
     else pending (host w') = pending (host w) ++ [Timer (timer_last (host w) + 1)]
          ∧ _interval (this w') = (timer_last (host w) + 1)%Z)
  ∧ queue w' = queue w
  ∧ ∃ t, trace w' = t ++ LEmit "start" :: trace w ∧ Forall is_listener_entry t.
Proof. apply (start_requests_one_callback (new_world false)). reflexivity. Defined.

(** X4.  A second [start] changes nothing, whatever the first one did. *)
Theorem start_twice_is_start_once w : start (start w) = start w.
Proof.
  pose proof (start_busy w) as Hb.
  unfold start at 1. by rewrite Hb.
Qed.

(** X5.  [stop] followed by [start] cancels no callback: every callback that
    was waiting is still waiting beside the new one, so a busy worker that is
    stopped and started again is invoked once more than before. *)
Theorem restart_keeps_waiting_callbacks w :
  busy w = true →
  ∃ q, pending (host (start (stop w))) = pending (host w) ++ [q]
       ∧ busy (start (stop w)) = true.
Proof.
  intros Hb.
  assert (busy (stop w) = false ∧ pending (host (stop w)) = pending (host w))
    as [Hb1 Hp].
  { unfold stop. by rewrite Hb. }
  destruct (start_requests_tick _ Hb1) as (Hb2 & _ & q & Hq).
  exists q. by rewrite Hq, Hp.
Qed.

Lemma restart_keeps_waiting_callbacks_witness :
  ∃ q, pending (host (start (stop (start (new_world true)))))
       = pending (host (start (new_world true))) ++ [q]
       ∧ busy (start (stop (start (new_world true)))) = true.
Proof. apply (restart_keeps_waiting_callbacks (start (new_world true))). reflexivity. Defined.

(** X6.  When the document becomes hidden while the worker is busy and its
    handler is registered, the callback that [_interval] names is cancelled
    and a timer is requested in its place. *)
Theorem hidden_document_rearms_with_timer w :
  busy w = true → visibilitychange_bound (host w) = true →
  let w' := visibilitychange false w in
  let i := _interval (this w) in
  pending (host w')
    = filter (λ p, p ≠ Timer i) (filter (λ p, p ≠ Raf i) (pending (host w)))
      ++ [Timer (timer_last (host w) + 1)]
  ∧ _interval (this w') = (timer_last (host w) + 1)%Z
  ∧ visible (host w') = false
  ∧ busy w' = true
  ∧ queue w' = queue w
  ∧ trace w' = trace w.
Proof.
  intros Hb Hv. simpl. unfold visibilitychange. simpl. rewrite Hv.
  unfold _handleVisibilityChange.
  assert (busy (upd_host (set_visible false) w) = true) as -> by done.
  simpl. done.
Qed.

Lemma hidden_document_rearms_with_timer_witness :
  let w := start (new_world true) in
  let w' := visibilitychange false w in
  let i := _interval (this w) in
  pending (host w')
    = filter (λ p, p ≠ Timer i) (filter (λ p, p ≠ Raf i) (pending (host w)))
      ++ [Timer (timer_last (host w) + 1)]
  ∧ _interval (this w') = (timer_last (host w) + 1)%Z
  ∧ visible (host w') = false
  ∧ busy w' = true
  ∧ queue w' = queue w
  ∧ trace w' = trace w.
Proof.
  apply (hidden_document_rearms_with_timer (start (new_world true))); reflexivity.
Defined.

(** X7.  The visibility handler acts only when the document becomes hidden
    while the worker is busy: when the document becomes visible, when the
    worker is not busy, or when the handler is not registered, the worker,
    the waiting callbacks and the trace stay as they are; in particular a
    timer requested while the document was hidden is not replaced by an
    animation frame. *)
Theorem visible_document_rearms_nothing v w :
  v = true ∨ busy w = false ∨ visibilitychange_bound (host w) = false →
  let w' := visibilitychange v w in
  this w' = this w
  ∧ pending (host w') = pending (host w)
  ∧ visible (host w') = v
  ∧ trace w' = trace w.
Proof.
  intros H. simpl. unfold visibilitychange. simpl.
  destruct (visibilitychange_bound (host w)) eqn:Hv; [|done].
  unfold _handleVisibilityChange, busy, browserActive. simpl.
  destruct H as [-> | [Hb | ?]]; [|unfold busy in Hb; rewrite Hb|done]; simpl.
  - by rewrite orb_true_r.
  - done.
Qed.

Lemma visible_document_rearms_nothing_witness :
  let w := visibilitychange false (start (new_world true)) in
  let w' := visibilitychange true w in
  this w' = this w
  ∧ pending (host w') = pending (host w)
  ∧ visible (host w') = true
  ∧ trace w' = trace w.
Proof.
  apply (visible_document_rearms_nothing true
           (visibilitychange false (start (new_world true)))).
  left. reflexivity.
Defined.

Lemma call_listeners_trace ls ev r w :
  ∃ d,
    (call_listeners ls ev r w).2
    = mkWorld (set_data d (this w)) (host w)
              (rev (map (λ l, LListener (listener_id l) ev) ls) ++ trace w)
              (next_job_id w).
Proof.
  revert r w. induction ls as [|l ls IH]; intros r w.
  - exists (_data (this w)). by destruct w as [[] ? ? ?].
  - simpl. destruct (listener_call l ev (data w)) as [d1 r1].
    match goal with |- context [call_listeners ls ev ?r0 ?w0] =>
      destruct (IH r0 w0) as (d & ->) end.
    exists d. simpl. by rewrite <- app_assoc.
Qed.

Lemma emit_world name w :
  ∃ d,
    (_emit name w).2
    = mkWorld (set_data d (this w)) (host w)
              (rev (map (λ l, LListener (listener_id l) (snapshot name w))
                        (default [] (_eventListener (this w) !! name)))
               ++ LEmit name :: trace w)
              (next_job_id w).
Proof.
  unfold _emit. simpl.
  destruct (_eventListener (this w) !! name) as [ls|] eqn:E; simpl.
  - match goal with |- context [call_listeners ls ?ev ?r0 ?w0] =>
      destruct (call_listeners_trace ls ev r0 w0) as (d & ->) end.
    by exists d.
  - exists (_data (this w)). by destruct w as [[] ? ? ?].
Qed.

(** X8.  One call of [_emit] invokes every listener registered under the
    name exactly once, in the order of registration, each with the same
    event object (the state of the worker at the time of the call); it
    changes nothing but the shared data, and with no listener registered it
    returns [undefined] and leaves the shared data as they are. *)
Theorem emit_calls_each_listener_once_in_order name w :
  let ls := default [] (_eventListener (this w) !! name) in
  (∃ d,
     (_emit name w).2
     = mkWorld (set_data d (this w)) (host w)
               (rev (map (λ l, LListener (listener_id l) (snapshot name w)) ls)
                ++ LEmit name :: trace w)
               (next_job_id w))
  ∧ ((_emit name w).1 = VUndefined ∨ (_emit name w).1 = VBool false)
  ∧ (ls = [] → (_emit name w).1 = VUndefined ∧ data (_emit name w).2 = data w).
Proof.
  simpl. split; [apply emit_world|].
  unfold _emit. simpl.
  destruct (_eventListener (this w) !! name) as [ls|] eqn:E; simpl.
  - split; [apply call_listeners_result|]. by intros ->.
  - by auto.
Qed.

(** X9.  Only the boolean [false] prevents: when no listener registered
    under the name ever returns the boolean [false] (whatever else it
    returns, [0], [null] or [undefined] among them), [_emit] returns
    [undefined]. *)
Theorem emit_not_prevented_by_other_values name w :
  Forall (λ l, ∀ ev d, is_false (listener_call l ev d).2 = false)
         (default [] (_eventListener (this w) !! name)) →
  (_emit name w).1 = VUndefined.
Proof.
  intros H. unfold _emit. simpl.
  destruct (_eventListener (this w) !! name) as [ls|]; [|done].
  by apply call_listeners_not_prevented.
Qed.

Lemma emit_not_prevented_by_other_values_witness :
  let falsy := mkListener 7 (λ _ d, (d, VNum 0)) in
  let w := match addEventListener "job" (IsFunction falsy) (new_world true) with
           | inr w => w
           | inl _ => new_world true
           end in
  (_emit "job" w).1 = VUndefined.
Proof.
  apply (emit_not_prevented_by_other_values "job").
  vm_compute. repeat constructor.
Defined.

(** X10.  One listener that returns the boolean [false] is enough: [_emit]
    returns [false] wherever the listener stands among the others, and the
    listeners after it are still invoked. *)
Theorem emit_prevented_by_one_listener name w ls l :
  _eventListener (this w) !! name = Some ls →
  l ∈ ls →
  (∀ ev d, (listener_call l ev d).2 = VBool false) →
  (_emit name w).1 = VBool false
  ∧ ∃ d,
      (_emit name w).2
      = mkWorld (set_data d (this w)) (host w)
                (rev (map (λ l, LListener (listener_id l) (snapshot name w)) ls)
                 ++ LEmit name :: trace w)
                (next_job_id w).
Proof.
  intros E Hin Hl. split.
  - unfold _emit. simpl. rewrite E. by eapply call_listeners_prevented.
  - destruct (emit_world name w) as (d & Hd).
    rewrite E in Hd. by exists d.
Qed.

Lemma emit_prevented_by_one_listener_witness :
  (_emit "job" world_veto).1 = VBool false
  ∧ ∃ d,
      (_emit "job" world_veto).2
      = mkWorld (set_data d (this world_veto)) (host world_veto)
                (rev (map (λ l, LListener (listener_id l) (snapshot "job" world_veto))
                          [veto])
                 ++ LEmit "job" :: trace world_veto)
                (next_job_id world_veto).
Proof.
  apply (emit_prevented_by_one_listener "job" world_veto [veto] veto).
  - vm_compute. reflexivity.
  - constructor.
  - intros ev d. reflexivity.
Defined.

(** X11.  [removeEventListener] removes every registration of the callback
    under the name and nothing else: the other listeners of the name keep
    their order, the other names keep their listeners, and the rest of the
    world is untouched.  With a callback that is not a function, or a name
    that has no listener list, it does nothing. *)
Theorem removeEventListener_removes_every_registration name l w :
  let w' := removeEventListener name (IsFunction l) w in
  default [] (_eventListener (this w') !! name)
    = filter (λ l', listener_id l' ≠ listener_id l)
             (default [] (_eventListener (this w) !! name))
  ∧ Forall (λ l', listener_id l' ≠ listener_id l)
           (default [] (_eventListener (this w') !! name))
  ∧ (∀ n, n ≠ name → _eventListener (this w') !! n = _eventListener (this w) !! n)
  ∧ w' = upd (set_eventListener (_eventListener (this w'))) w
  ∧ removeEventListener name NotAFunction w = w
  ∧ (_eventListener (this w) !! name = None →
     ∀ callback, removeEventListener name callback w = w).
Proof.
  simpl. unfold removeEventListener.
  destruct (_eventListener (this w) !! name) as [ls|] eqn:E; simpl.
  - rewrite lookup_insert_eq. simpl. repeat split; try done.
    + apply Forall_forall. intros l' Hl'. by apply list_elem_of_filter in Hl' as [? _].
    + intros n Hn. by rewrite lookup_insert_ne.
  - rewrite E. simpl. repeat split; try done.
    by destruct w as [[] ? ? ?].
Qed.

(** X12.  Registering a callback and removing it again gives back the
    listeners the name had, provided the callback was not registered under
    the name before; the listeners of the other names are untouched. *)
Theorem add_then_remove_listener name l w w1 :
  addEventListener name (IsFunction l) w = inr w1 →
  Forall (λ l', listener_id l' ≠ listener_id l)
         (default [] (_eventListener (this w) !! name)) →
  let w2 := removeEventListener name (IsFunction l) w1 in
  default [] (_eventListener (this w2) !! name)
    = default [] (_eventListener (this w) !! name)
  ∧ (∀ n, n ≠ name → _eventListener (this w2) !! n = _eventListener (this w) !! n)
  ∧ w2 = upd (set_eventListener (_eventListener (this w2))) w.
Proof.
  unfold addEventListener. case_bool_decide; [done|].
  intros [= <-] Hfresh. simpl. unfold removeEventListener. simpl.
  rewrite lookup_insert_eq. simpl. rewrite lookup_insert_eq. simpl.
  split; [|split].
  - rewrite filter_app, (filter_singleton_False _ l []);
      [|intros Hn; by destruct Hn].
    rewrite app_nil_r.
    induction Hfresh as [|l' ls Hl' _ IH]; [done|].
    by rewrite filter_cons_True, IH.
  - intros n Hn. by rewrite !lookup_insert_ne.
  - done.
Qed.

Lemma add_then_remove_listener_witness :
  let w := new_world true in
  let w1 := upd (set_eventListener (<["job" := [veto]]> (_eventListener (this w)))) w in
  let w2 := removeEventListener "job" (IsFunction veto) w1 in
  default [] (_eventListener (this w2) !! "job")
    = default [] (_eventListener (this w) !! "job")
  ∧ (∀ n, n ≠ "job" → _eventListener (this w2) !! n = _eventListener (this w) !! n)
  ∧ w2 = upd (set_eventListener (_eventListener (this w2))) w.
Proof.
  apply (add_then_remove_listener "job" veto (new_world true)).
  - reflexivity.
  - vm_compute. constructor.
Defined.

Lemma insert_job_first b l :
  (∀ h, head l = Some h → (job_priority b ≤ job_priority h)%Z) →
  insert_job b l = b :: l.
Proof.
  intros H. destruct l as [|h l]; [done|]. simpl. unfold compareFn.
  specialize (H h eq_refl).
  destruct (Z.leb_spec (job_priority b - job_priority h) 0); [done|lia].
Qed.

Lemma job_before_le a b : job_before a b → (job_priority a ≤ job_priority b)%Z.
Proof. intros [?|[? _]]; lia. Qed.

(** Sorting after a push puts the new job behind the jobs of the same or a
    lower priority value and ahead of the others. *)
Lemma sort_push_position l a :
  StronglySorted job_before l →
  sort (l ++ [a])
  = filter (λ b, job_priority b ≤ job_priority a)%Z l
    ++ a :: filter (λ b, job_priority a < job_priority b)%Z l.
Proof.
  induction 1 as [|b l Hl IH Hb]; [done|].
  change (sort ((b :: l) ++ [a])) with (insert_job b (sort (l ++ [a]))).
  rewrite IH. rewrite Forall_forall in Hb.
  destruct (decide (job_priority b ≤ job_priority a)%Z) as [Hle|Hgt].
  - rewrite filter_cons_True, (filter_cons_False _ b) by lia.
    apply insert_job_first. intros h Hh.
    destruct (filter _ l) as [|h' f'] eqn:Ef; simpl in Hh.
    + by injection Hh as <-.
    + injection Hh as <-. apply job_before_le, Hb.
      assert (h' ∈ filter (λ b0, job_priority b0 ≤ job_priority a)%Z l) as Hin
        by (rewrite Ef; constructor).
      by apply list_elem_of_filter in Hin as [_ ?].
  - rewrite (filter_cons_False _ b), (filter_cons_True _ b) by lia.
    assert (filter (λ b0, job_priority b0 ≤ job_priority a)%Z l = []) as ->.
    { clear IH. induction l as [|c l IHl]; [done|].
      apply StronglySorted_inv in Hl as [Hl _].
      rewrite filter_cons_False.
      - apply IHl; [done|]. intros x Hx. apply Hb. by right.
      - pose proof (job_before_le _ _ (Hb c ltac:(left))). lia. }
    assert (filter (λ b0, job_priority a < job_priority b0)%Z l = l) as ->.
    { clear IH. induction l as [|c l IHl]; [done|].
      apply StronglySorted_inv in Hl as [Hl _].
      rewrite filter_cons_True.
      - f_equal. apply IHl; [done|]. intros x Hx. apply Hb. by right.
      - pose proof (job_before_le _ _ (Hb c ltac:(left))). lia. }
    simpl. unfold compareFn.
    destruct (Z.leb_spec (job_priority b - job_priority a) 0); [lia|].
    f_equal. apply insert_job_first. intros h Hh.
    apply job_before_le, Hb. destruct l; [done|]. injection Hh as <-. left.
Qed.

(** X13.  In every run [append] puts the new job behind every queued job of
    the same or a lower priority value and ahead of every queued job of a
    higher one, keeps the order of the queued jobs, and adds one to
    [_jobsCount]; it does not start the worker, requests no callback and
    emits nothing. *)
Theorem append_position v ops a :
  let w := run ops (new_world v) in
  let job := make_job a (next_job_id w) in
  _jobList (this (append a w))
    = filter (λ b, job_priority b ≤ job_priority job)%Z (_jobList (this w))
      ++ job :: filter (λ b, job_priority job < job_priority b)%Z (_jobList (this w))
  ∧ _jobsCount (this (append a w)) = S (_jobsCount (this w))
  ∧ _jobsComplete (this (append a w)) = _jobsComplete (this w)
  ∧ busy (append a w) = busy w
  ∧ host (append a w) = host w
  ∧ trace (append a w) = trace w.
Proof.
  simpl. split; [|done].
  apply sort_push_position, inv_sorted, Inv_run, Inv_new.
Qed.

(** X14.  A break halts like an error does: whichever listener prevented,
    [_worker] requests no callback and leaves the busy flag set, so [start]
    alone changes nothing afterwards, while [stop] followed by [start]
    requests a callback again. *)
Theorem break_keeps_busy_start_is_noop w w' rep :
  _worker w = (w', rep) →
  outcome rep = BrokenByJobListener ∨ outcome rep = BrokenByFrameListener →
  busy w' = true
  ∧ pending (host w') = pending (host w)
  ∧ _interval (this w') = (-1)%Z
  ∧ error w' = error w
  ∧ start w' = w'
  ∧ ∃ q, pending (host (start (stop w'))) = pending (host w') ++ [q].
Proof.
  intros H%worker_spec Ho. unfold worker_post in H.
  assert (busy w = true ∧ ∃ k d t,
            w' = upd (set_interval (-1)) (after_jobs w k (_error (this w)) d t))
    as (Hb & k & d & t & ->).
  { destruct Ho as [Ho|Ho]; rewrite Ho in H.
    - destruct H as (Hb & k & d & t & _ & _ & _ & _ & -> & _). eauto 6.
    - destruct H as (Hb & k & d & t & _ & _ & _ & -> & _). eauto 6. }
  unfold busy in Hb.
  split; [done|]. split; [done|]. split; [done|]. split; [done|].
  split; [unfold start, busy; simpl; by rewrite Hb|].
  assert (busy (stop (upd (set_interval (-1))
                        (after_jobs w k (_error (this w)) d t))) = false) as Hb1.
  { unfold stop, busy. simpl. by rewrite Hb. }
  destruct (start_requests_tick _ Hb1) as (_ & _ & q & Hq).
  exists q. rewrite Hq. unfold stop, busy. simpl. by rewrite Hb.
Qed.

Lemma break_keeps_busy_start_is_noop_witness :
  let w := world_veto in
  let w' := (_worker w).1 in
  busy w' = true
  ∧ pending (host w') = pending (host w)
  ∧ _interval (this w') = (-1)%Z
  ∧ error w' = error w
  ∧ start w' = w'
  ∧ ∃ q, pending (host (start (stop w'))) = pending (host w') ++ [q].
Proof.
  apply (break_keeps_busy_start_is_noop world_veto
           (_worker world_veto).1 (_worker world_veto).2).
  - vm_compute. reflexivity.
  - left. vm_compute. reflexivity.
Defined.

(** X15.  [_complete] clears the busy flag and [_interval] first, then emits
    the complete signal, then clears the worker: the listeners of complete
    see an event with [busy] false, [interval] -1 and the counters as they
    were before the reset. *)
Theorem complete_emits_then_clears w :
  let ev := mkEvent "complete" false (-1) (_jobsComplete (this w)) (_jobsCount (this w)) in
  let ls := default [] (_eventListener (this w) !! "complete") in
  ∃ d,
    _complete w
    = clear (mkWorld (set_data d (set_interval (-1) (set_busy false (this w))))
                     (host w)
                     (rev (map (λ l, LListener (listener_id l) ev) ls)
                      ++ LEmit "complete" :: trace w)
                     (next_job_id w)).
Proof.
  simpl. unfold _complete.
  match goal with |- context [_emit ?n ?w0] =>
    destruct (emit_world n w0) as (d & ->) end.
  by exists d.
Qed.

(** X16.  An invocation completes only by running the whole job list: on
    that path every queued job was run, the job list is empty, both counters
    are 0, the busy flag and [_error] are reset, the visibility handler is
    unregistered and no callback is requested. *)
Theorem completed_runs_whole_list_and_resets w w' rep :
  _worker w = (w', rep) → outcome rep = Completed →
  invoked rep = _jobList (this w)
  ∧ length (_jobList (this w)) ≤ batch_size w
  ∧ busy w' = false
  ∧ _jobList (this w') = []
  ∧ _jobsComplete (this w') = 0
  ∧ _jobsCount (this w') = 0
  ∧ error w' = None
  ∧ _interval (this w') = (-1)%Z
  ∧ visibilitychange_bound (host w') = false
  ∧ pending (host w')
    = filter (λ p, p ≠ Timer (-1)) (filter (λ p, p ≠ Raf (-1)) (pending (host w)))
  ∧ ∃ t, trace w' = t ++ trace w ∧ ends_with_emit "complete" t.
Proof.
  intros H%worker_spec Ho. unfold worker_post in H. rewrite Ho in H.
  destruct H as (Hb & k & d & t & Hk & -> & Hi & -> & Ht).
  simpl. repeat split; try done. by exists t.
Qed.

Lemma completed_runs_whole_list_and_resets_witness :
  let w := dequeue (Raf 1) (run [OAppend (half returns); OStart] (new_world true)) in
  let w' := (_worker w).1 in
  invoked (_worker w).2 = _jobList (this w)
  ∧ length (_jobList (this w)) ≤ batch_size w
  ∧ busy w' = false
  ∧ _jobList (this w') = []
  ∧ _jobsComplete (this w') = 0
  ∧ _jobsCount (this w') = 0
  ∧ error w' = None
  ∧ _interval (this w') = (-1)%Z
  ∧ visibilitychange_bound (host w') = false
  ∧ pending (host w')
    = filter (λ p, p ≠ Timer (-1)) (filter (λ p, p ≠ Raf (-1)) (pending (host w)))
  ∧ ∃ t, trace w' = t ++ trace w ∧ ends_with_emit "complete" t.
Proof.
  apply (completed_runs_whole_list_and_resets
           (dequeue (Raf 1) (run [OAppend (half returns); OStart] (new_world true)))
           (_worker (dequeue (Raf 1)
                       (run [OAppend (half returns); OStart] (new_world true)))).1
           (_worker (dequeue (Raf 1)
                       (run [OAppend (half returns); OStart] (new_world true)))).2).
  - vm_compute. reflexivity.
  - vm_compute. reflexivity.
Defined.

(** X17.  A busy worker with an empty job list runs no job: its invocation
    emits the framerequest signal and then completes, unless a listener of
    framerequest prevents, in which case it breaks. *)
Theorem empty_list_completes_at_once w :
  busy w = true → _jobList (this w) = [] →
  invoked (_worker w).2 = []
  ∧ (outcome (_worker w).2 = Completed ∨ outcome (_worker w).2 = BrokenByFrameListener)
  ∧ ((_emit "framerequest" w).1 = VUndefined → outcome (_worker w).2 = Completed).
Proof.
  intros Hb Hl. unfold _worker. rewrite Hb, Hl. simpl.
  destruct (emit_frame "framerequest" w) as (d & t & E & _).
  destruct (_emit "framerequest" w) as [r w1]. simpl in E. subst w1.
  destruct (is_false r) eqn:Hr; simpl.
  - split; [done|]. split; [by right|]. intros ->. done.
  - rewrite Hl. simpl. auto.
Qed.

Lemma empty_list_completes_at_once_witness :
  let w := start (new_world true) in
  invoked (_worker w).2 = []
  ∧ (outcome (_worker w).2 = Completed ∨ outcome (_worker w).2 = BrokenByFrameListener)
  ∧ ((_emit "framerequest" w).1 = VUndefined → outcome (_worker w).2 = Completed).
Proof.
  apply (empty_list_completes_at_once (start (new_world true))); reflexivity.
Defined.




(** * Properties of the single-handler worker *)

Lemma single_emit_value name w : (Single._emit name w).1 = VUndefined.
Proof.
  unfold Single._emit. destruct (Single.property _ _); [|done].
  by destruct (listener_call _ _ _).
Qed.

Lemma single_emit_frame name w :
  ∃ d t, (Single._emit name w).2 = single_after w 0 0 d t.
Proof.
  unfold Single._emit, single_after.
  destruct (Single.property _ _) as [fn|].
  - destruct (listener_call _ _ _) as [d r]. simpl.
    exists d, [Single.LHandler (Single.handler_name name) (listener_id fn)
                 (Single.snapshot name w)].
    by rewrite drop_0, Nat.add_0_r.
  - exists (Single._data (Single.this w)), [].
    destruct w as [[] ? ? ?]. simpl. by rewrite Nat.add_0_r.
Qed.

(** The loop takes [k] jobs off the list; a job that throws is one of them
    and is not counted. *)
Lemma single_execute_spec jobs index w x js w' :
  Single._jobList (Single.this w) = jobs →
  Single.execute jobs index w = (x, js, w') →
  ∃ d t k,
    match x with
    | Single.ExitLoop =>
        js = take k jobs ∧ k ≤ length jobs ∧ w' = single_after w k k d t
    | Single.ExitThrow job e =>
        js = take (S k) jobs ∧ jobs !! k = Some job
        ∧ w' = single_after w (S k) k d t
    | Single.ExitPrevented => False
    end.
Proof.
  revert index w x js w'.
  induction jobs as [|job rest IH]; intros index w x js w' Hl H.
  { simpl in H. injection H as <- <- <-.
    exists (Single._data (Single.this w)), [], 0.
    destruct w as [[] ? ? ?]; simpl in *. subst. unfold single_after. simpl.
    by rewrite Nat.add_0_r. }
  simpl in H.
  destruct (Qgt_bool _ _).
  2:{ injection H as <- <- <-.
      exists (Single._data (Single.this w)), [], 0.
      destruct w as [[] ? ? ?]; simpl in *. subst. unfold single_after. simpl.
      rewrite Nat.add_0_r. repeat split; try done; lia. }
  unfold Single.data in H. simpl in H.
  destruct (Single.job_fn job (Single.job_args job) (Single._data (Single.this w)))
    as [d1 [e|]].
  - injection H as <- <- <-.
    exists d1, [Single.LJob job], 0. unfold single_after. simpl.
    rewrite Hl, Nat.add_0_r. simpl. by rewrite drop_0.
  - match type of H with context [Single._emit ?n ?w0] =>
      pose proof (single_emit_value n w0) as Hv;
      destruct (single_emit_frame n w0) as (d & t & E);
      destruct (Single._emit n w0) as [r w1] end.
    simpl in Hv, E. subst r w1. simpl in H.
    match type of H with context [Single.execute rest ?i0 ?w0] =>
      destruct (Single.execute rest i0 w0) as [[x0 js0] w2] eqn:Eex end.
    injection H as <- <- <-.
    apply IH in Eex as (d2 & t2 & k & Hx); [|by unfold single_after; simpl; rewrite drop_0].
    exists d2, (t2 ++ t ++ [Single.LJob job]), (S k).
    unfold single_after in *. simpl in *. rewrite !drop_0 in Hx. rewrite Hl. simpl.
    rewrite <- !app_assoc. simpl. rewrite !Nat.add_0_r in Hx.
    rewrite Nat.add_succ_r.
    destruct x0.
    + destruct Hx as (-> & Hk & ->). repeat split; try done; lia.
    + by destruct Hx as (-> & Hk & ->).
    + done.
Qed.

Lemma single_after_after w k c d t d' t' :
  single_after (single_after w k c d t) 0 0 d' t' = single_after w k c d' (t' ++ t).
Proof.
  unfold single_after. simpl. by rewrite drop_0, Nat.add_0_r, <- app_assoc.
Qed.

Lemma single_worker_spec w w' rep :
  Single._worker w = (w', rep) → single_worker_post w w' rep.
Proof.
  unfold Single._worker, single_worker_post. simpl.
  destruct (Single.busy w) eqn:Eb; simpl.
  2:{ by intros [= <- <-]. }
  destruct (Single.execute _ 0 w) as [[x js] w1] eqn:Eex.
  apply single_execute_spec in Eex as (d & t & k & Hx); [|done].
  destruct x.
  - destruct Hx as (-> & Hk & ->).
    match goal with |- context [Single._emit ?n ?w0] =>
      pose proof (single_emit_value n w0) as Hv;
      destruct (single_emit_frame n w0) as (d' & t' & E);
      destruct (Single._emit n w0) as [r w2] end.
    simpl in Hv, E. subst r w2. rewrite single_after_after. simpl.
    destruct (drop k (Single._jobList (Single.this w))) as [|j0 rest0] eqn:Edrop.
    + intros [= <- <-]. simpl. split; [done|].
      assert (k = length (Single._jobList (Single.this w))) as ->.
      { apply (f_equal length) in Edrop. rewrite length_drop in Edrop.
        simpl in Edrop. lia. }
      unfold Single._complete.
      match goal with |- context [Single._emit ?n ?w0] =>
        destruct (single_emit_frame n w0) as (d2 & t2 & ->) end.
      exists d2, (t2 ++ t' ++ t). split; [by rewrite firstn_all|].
      unfold single_after, Single.upd, Single.clear. simpl.
      by rewrite <- !app_assoc.
    + intros [= <- <-]. simpl. split; [done|].
      exists d', (t' ++ t), k. repeat split; try done.
      apply (f_equal length) in Edrop. rewrite length_drop in Edrop.
      simpl in Edrop. lia.
  - destruct Hx as (-> & Hl & ->). intros [= <- <-]. simpl.
    split; [done|]. by exists d, t, k.
  - done.
Qed.

(** X19.  In the single-handler worker the value a handler returns is
    ignored: [_emit] has no [return], so no invocation of [_worker] ever
    takes the break path, whatever the handlers of the job and frameRequest
    signals return. *)
Theorem single_handlers_cannot_break w :
  Single.outcome (Single._worker w).2 ≠ Single.Broken
  ∧ ∀ name, (Single._emit name w).1 = VUndefined.
Proof.
  split; [|intros; apply single_emit_value].
  destruct (Single._worker w) as [w' rep] eqn:E.
  apply single_worker_spec in E. unfold single_worker_post in E. simpl.
  intros Ho. by rewrite Ho in E.
Qed.



Lemma Qgt_bool_lt a b : Qgt_bool a b = true ↔ (b < a)%Q.
Proof.
  unfold Qgt_bool. rewrite negb_true_iff. split.
  - intros H. apply Qnot_le_lt. intros Hle. apply Qle_bool_iff in Hle. congruence.
  - intros H. destruct (Qle_bool a b) eqn:E; [|done].
    apply Qle_bool_iff in E. lra.
Qed.

(** The test [index < limit] of a counting loop holds for the indices below
    [quota limit] and for no other. *)
Lemma index_below_quota limit index :
  Qgt_bool limit (inject_Z (Z.of_nat index)) = true ↔ index < quota limit.
Proof.
  rewrite Qgt_bool_lt. unfold quota. split.
  - intros H. pose proof (Qle_ceiling limit) as Hc.
    assert (inject_Z (Z.of_nat index) < inject_Z (Qceiling limit))%Q as Hlt by lra.
    rewrite <- Zlt_Qlt in Hlt. lia.
  - intros H. pose proof (Qceiling_lt limit) as Hc.
    assert (Z.of_nat index ≤ Qceiling limit - 1)%Z as Hle by lia.
    rewrite Zle_Qle in Hle. lra.
Qed.

Lemma quota_ge_1 limit : (1 <= limit)%Q → 1 ≤ quota limit.
Proof.
  intros H. unfold quota.
  pose proof (Qceiling_resp_le _ _ H) as Hc.
  change (Qceiling 1) with 1%Z in Hc. lia.
Qed.

(** When none of the jobs in reach throws, the loop runs the jobs below the
    quota and is left by its condition. *)
Lemma single_execute_quota jobs index w :
  Single._jobList (Single.this w) = jobs →
  let n := quota (Single.jobsPerFrameRequest w) - index in
  Forall (λ j, never_throws (Single.job_fn j) (Single.job_args j)) (take n jobs) →
  ∃ d t,
    Single.execute jobs index w
    = (Single.ExitLoop, take n jobs,
       single_after w (length (take n jobs)) (length (take n jobs)) d t).
Proof.
  revert index w. induction jobs as [|job rest IH]; intros index w Hl n Hok.
  { exists (Single._data (Single.this w)), []. simpl. rewrite take_nil. simpl.
    unfold single_after. rewrite Hl. simpl. rewrite Nat.add_0_r.
    by destruct w as [[] ? ? ?]; simpl in *; subst. }
  simpl.
  destruct (Qgt_bool _ _) eqn:Eq.
  2:{ assert (n = 0) as ->.
      { destruct (decide (index < quota (Single.jobsPerFrameRequest w))) as [Hlt|]; [|lia].
        apply index_below_quota in Hlt. congruence. }
      exists (Single._data (Single.this w)), []. simpl.
      unfold single_after. rewrite Hl. simpl. rewrite Nat.add_0_r.
      by destruct w as [[] ? ? ?]; simpl in *; subst. }
  apply index_below_quota in Eq.
  destruct n as [|n'] eqn:En; [lia|]. simpl in Hok.
  apply Forall_cons in Hok as [Hj Hok].
  unfold Single.data. simpl.
  specialize (Hj (Single._data (Single.this w))).
  destruct (Single.job_fn job (Single.job_args job) (Single._data (Single.this w)))
    as [d1 thrown]. simpl in Hj. subst thrown.
  match goal with |- context [Single._emit ?n ?w0] =>
    pose proof (single_emit_value n w0) as Hv;
    destruct (single_emit_frame n w0) as (d & t & E);
    destruct (Single._emit n w0) as [r w1] end.
  simpl in Hv, E. subst r w1. simpl.
  match goal with |- context [Single.execute rest (S index) ?w0] =>
    destruct (IH (S index) w0) as (d2 & t2 & ->) end.
  { unfold single_after. simpl. by rewrite drop_0. }
  { unfold single_after, Single.jobsPerFrameRequest. simpl.
    replace (quota _ - S index) with n'; [done|].
    unfold n, Single.jobsPerFrameRequest in En. lia. }
  unfold single_after, Single.jobsPerFrameRequest. simpl.
  replace (quota (Single._jobsPerFrameRequest (Single.this w)) - S index) with n'
    by (unfold n, Single.jobsPerFrameRequest in En; lia).
  exists d2, (t2 ++ t ++ [Single.LJob job]). rewrite Hl. simpl.
  rewrite !drop_0, !Nat.add_0_r, Nat.add_succ_r, <- !app_assoc. done.
Qed.

Lemma single_continue_jp w :
  Single.jobsPerFrameRequest (Single._continue w) = Single.jobsPerFrameRequest w.
Proof. unfold Single._continue. by destruct (Single.raf_available w). Qed.

Lemma single_worker_jp w :
  Single.jobsPerFrameRequest (Single._worker w).1 = Single.jobsPerFrameRequest w.
Proof.
  destruct (Single._worker w) as [w' rep] eqn:E.
  apply single_worker_spec in E. unfold single_worker_post in E. simpl.
  destruct (Single.outcome rep).
  - destruct E as (_ & -> & _). unfold Single._stop.
    match goal with |- context [Single._emit ?n ?w0] =>
      destruct (single_emit_frame n w0) as (d & t & ->) end. done.
  - by destruct E as (_ & d & t & k & _ & _ & ->).
  - done.
  - destruct E as (_ & d & t & k & _ & _ & ->). by rewrite single_continue_jp.
  - by destruct E as (_ & d & t & _ & ->).
Qed.

Lemma single_step_jp w op :
  (1 <= Single.jobsPerFrameRequest w)%Q →
  (1 <= Single.jobsPerFrameRequest (Single.step w op))%Q.
Proof.
  intros H. destruct op; simpl; try done.
  - unfold Single.start. destruct (Single.busy w); [done|].
    rewrite single_continue_jp.
    match goal with |- context [Single._emit ?n ?w0] =>
      destruct (single_emit_frame n w0) as (d & t & ->) end. done.
  - unfold Single.stop. by destruct (negb _).
  - unfold Single.jobsPerFrameRequest_set, Single.jobsPerFrameRequest. simpl.
    destruct (Qle_bool 1 (default 0%Q value)) eqn:E; [|lra].
    by apply Qle_bool_iff.
  - unfold Single.fire. case_bool_decide; [|done]. by rewrite single_worker_jp.
Qed.

Lemma single_run_jp ops w :
  (1 <= Single.jobsPerFrameRequest w)%Q →
  (1 <= Single.jobsPerFrameRequest (Single.run ops w))%Q.
Proof.
  revert w. induction ops as [|op ops IH]; intros w H; [done|].
  simpl. apply IH. by apply single_step_jp.
Qed.

(** X21.  In every run of the single-handler worker [jobsPerFrameRequest]
    is at least 1, and an invocation of a busy worker in which no job throws
    runs exactly the first [quota jobsPerFrameRequest] jobs of the list (all
    of them when there are fewer), at least one when the list is not empty;
    it continues when jobs are left and completes otherwise. *)
Theorem single_batch_is_quota raf ops p :
  let w := Single.dequeue p (Single.run ops (Single.new_world raf)) in
  let jobs := Single._jobList (Single.this w) in
  let n := quota (Single.jobsPerFrameRequest w) in
  (1 <= Single.jobsPerFrameRequest w)%Q
  ∧ 1 ≤ n
  ∧ (Single.busy w = true →
     Forall (λ j, never_throws (Single.job_fn j) (Single.job_args j)) (take n jobs) →
     Single.invoked (Single._worker w).2 = take n jobs
     ∧ Single.outcome (Single._worker w).2
       = if decide (n < length jobs) then Single.Continued else Single.Completed).
Proof.
  intros w jobs n.
  assert (1 <= Single.jobsPerFrameRequest w)%Q as Hjp.
  { apply (single_run_jp ops (Single.new_world raf)). by compute. }
  clearbody w. subst jobs.
  split; [done|]. split; [by apply quota_ge_1|].
  intros Hb Hok. unfold Single._worker. rewrite Hb. simpl.
  destruct (single_execute_quota (Single._jobList (Single.this w)) 0 w eq_refl)
    as (d & t & ->).
  { by rewrite Nat.sub_0_r. }
  rewrite Nat.sub_0_r. fold n.
  match goal with |- context [Single._emit ?n ?w0] =>
    pose proof (single_emit_value n w0) as Hv;
    destruct (single_emit_frame n w0) as (d' & t' & E);
    destruct (Single._emit n w0) as [r w2] end.
  simpl in Hv, E. subst r w2. simpl.
  rewrite drop_0, length_take.
  destruct (decide (n < length (Single._jobList (Single.this w)))) as [Hlt|Hge].
  - rewrite Nat.min_l by lia.
    destruct (drop n (Single._jobList (Single.this w))) eqn:Ed; [|done].
    apply (f_equal length) in Ed. rewrite length_drop in Ed. simpl in Ed. lia.
  - rewrite Nat.min_r by lia. by rewrite drop_all.
Qed.

Lemma single_batch_is_quota_witness :
  let w := Single.dequeue (Raf 1)
             (Single.run [Single.OAppend returns []; Single.OAppend returns [];
                          Single.OSetJobsPerFrameRequest (Some (3 # 2)%Q);
                          Single.OStart] (Single.new_world true)) in
  let jobs := Single._jobList (Single.this w) in
  let n := quota (Single.jobsPerFrameRequest w) in
  Single.invoked (Single._worker w).2 = take n jobs
  ∧ Single.outcome (Single._worker w).2
    = if decide (n < length jobs) then Single.Continued else Single.Completed.
Proof.
  apply (single_batch_is_quota true
           [Single.OAppend returns []; Single.OAppend returns [];
            Single.OSetJobsPerFrameRequest (Some (3 # 2)%Q); Single.OStart] (Raf 1)).
  - reflexivity.
  - vm_compute. repeat constructor.
Defined.

(** X22.  In the single-handler worker [clear] cancels timers only: an
    animation-frame callback that is waiting stays waiting, and when the
    browser runs it [_worker] finds the busy flag cleared and calls the stop
    handler, so a [clear] of a worker that waits for an animation frame is
    followed by a stop event. *)
Theorem single_clear_leaves_animation_frame w id :
  Raf id ∈ pending (Single.host w) →
  let w1 := Single.clear w in
  let w2 := Single.fire (Raf id) w1 in
  let ev := mkEvent "stop" false (-1) 0 0 in
  Raf id ∈ pending (Single.host w1)
  ∧ Single.trace w1 = Single.trace w
  ∧ Single.trace w2
    = Single.LHandler "onStop" (listener_id (Single._onStop (Single.this w))) ev
      :: Single.trace w
  ∧ Single.data w2 = (listener_call (Single._onStop (Single.this w)) ev (Single.data w)).1.
Proof.
  intros Hin. simpl.
  assert (Raf id ∈ pending (Single.host (Single.clear w))) as Hin1.
  { simpl. apply list_elem_of_filter. by split. }
  split; [done|]. split; [done|].
  unfold Single.fire. rewrite bool_decide_eq_true_2 by done.
  unfold Single._worker, Single._stop, Single._emit. simpl.
  destruct (listener_call _ _ _) as [d r] eqn:E. simpl.
  split; reflexivity.
Qed.

Lemma single_clear_leaves_animation_frame_witness :
  let w := Single.start (Single.new_world true) in
  let w1 := Single.clear w in
  let w2 := Single.fire (Raf 1) w1 in
  let ev := mkEvent "stop" false (-1) 0 0 in
  Raf 1 ∈ pending (Single.host w1)
  ∧ Single.trace w1 = Single.trace w
  ∧ Single.trace w2
    = Single.LHandler "onStop" (listener_id (Single._onStop (Single.this w))) ev
      :: Single.trace w
  ∧ Single.data w2 = (listener_call (Single._onStop (Single.this w)) ev (Single.data w)).1.
Proof.
  apply (single_clear_leaves_animation_frame (Single.start (Single.new_world true)) 1).
  vm_compute. constructor.
Defined.

(** X23.  In the single-handler worker [append] sets [_jobsCount] to the
    length of the job list, so once a job has completed an [append] makes
    [_jobsCount] smaller than the completed jobs and the queued jobs
    together. *)
Theorem single_append_counts_queue_only fn args w :
  0 < Single._jobsComplete (Single.this w) →
  let w' := Single.append fn args w in
  Single._jobsCount (Single.this w') = length (Single._jobList (Single.this w'))
  ∧ Single._jobList (Single.this w') = Single._jobList (Single.this w) ++ [Single.mkJob fn args]
  ∧ Single._jobsCount (Single.this w')
    < Single._jobsComplete (Single.this w') + length (Single._jobList (Single.this w')).
Proof. intros H. simpl. repeat split. lia. Qed.

Lemma single_append_counts_queue_only_witness :
  let w := single_world_halfway in
  let w' := Single.append returns [] w in
  Single._jobsCount (Single.this w') = length (Single._jobList (Single.this w'))
  ∧ Single._jobList (Single.this w') = Single._jobList (Single.this w) ++ [Single.mkJob returns []]
  ∧ Single._jobsCount (Single.this w')
    < Single._jobsComplete (Single.this w') + length (Single._jobList (Single.this w')).
Proof.
  apply (single_append_counts_queue_only returns [] single_world_halfway).
  vm_compute. lia.
Defined.

(** X24.  Each handler setter installs the function it is given and [_noop]
    for a value that is not a function; [_emit] for the signal then calls
    what was installed, once, with an event of the worker's state, and after
    a value that is not a function it leaves the shared data as they are. *)
Theorem single_setter_installs_handler set name value w :
  (set, name) ∈ single_setters →
  let w' := set value w in
  let ev := Single.snapshot name w' in
  let fn := match value with IsFunction f => f | NotAFunction => Single._noop end in
  Single._emit name w'
  = (VUndefined,
     Single.log (Single.LHandler (Single.handler_name name) (listener_id fn) ev)
       (Single.upd (Single.set_data (listener_call fn ev (Single.data w')).1) w'))
  ∧ (value = NotAFunction → Single.data (Single._emit name w').2 = Single.data w).
Proof.
  intros Hin. simpl. unfold single_setters in Hin.
  repeat (apply elem_of_cons in Hin as [[= -> ->]|Hin]);
    [..|by apply elem_of_nil in Hin];
    (split; [unfold Single._emit; simpl; by destruct (listener_call _ _ _)
            |intros ->; reflexivity]).
Qed.

Lemma single_setter_installs_handler_witness :
  let w' := Single.onJob_set NotAFunction (Single.new_world true) in
  let ev := Single.snapshot "job" w' in
  Single._emit "job" w'
  = (VUndefined,
     Single.log (Single.LHandler (Single.handler_name "job") (listener_id Single._noop) ev)
       (Single.upd (Single.set_data (listener_call Single._noop ev (Single.data w')).1) w'))
  ∧ (NotAFunction = NotAFunction →
     Single.data (Single._emit "job" w').2 = Single.data (Single.new_world true)).
Proof.
  apply (single_setter_installs_handler Single.onJob_set "job" NotAFunction
           (Single.new_world true)).
  vm_compute. do 3 right. left.
Defined.

(** * Properties of the counting worker with listeners *)






(** X25.  The counting worker has no error signal: [addEventListener]
    accepts a callable listener under start, stop, break, job, framerequest
    and complete and under no other name, refuses the name error like any
    unknown name, and refuses a callback that is not a function under a
    valid name with the message for callbacks. *)
Theorem counting_addEventListener_names eventName l w :
  (eventName ∈ ["start"; "stop"; "break"; "job"; "framerequest"; "complete"]%string
   ↔ ∃ w', Counting.addEventListener eventName (IsFunction l) w = inr w')
  ∧ (∀ callback, Counting.addEventListener "error" callback w
                 = inl Counting.invalid_signal_message)
  ∧ (eventName ∈ ["start"; "stop"; "break"; "job"; "framerequest"; "complete"]%string
     → Counting.addEventListener eventName NotAFunction w
       = inl Counting.invalid_callback_message).
Proof.
  unfold Counting.addEventListener, Counting._signals.
  split; [|split].
  - case_bool_decide as Hin; split.
    + intros Hok. by destruct Hin.
    + by intros [w' ?].
    + eauto.
    + done.
  - intros callback. reflexivity.
  - intros Hin. by rewrite bool_decide_eq_false_2 by (intros Hn; by destruct Hn).
Qed.



